(** * fix_lines.py: CRLF to LF normalisation of a fixed list of shell scripts

    A shallow embedding of [fix_lines.py].  Python [bytes] values are lists of
    [Byte.byte]; [bytes.replace] is modelled for arbitrary patterns, and the
    script's transformation is its instance at [b'\r\n'] / [b'\n'].

    The script is embedded over two environments.  In the first the working
    directory is a finite map from names to nodes and the only calls that
    raise are [open] on a directory and [open] without permission.  In the
    second, module [Posix], names resolve to inodes, so that links make
    several names denote one file, and every system call can fail.  Both run
    the same loop in a small state-and-exception monad that records the
    console lines and the sequence of effects; the last section proves that
    they agree on working directories without links when no call fails. *)

From Stdlib Require Import Strings.Byte.
From stdpp Require Import base gmap list strings.


(** ** Bytes *)

Abbreviation bytes := (list byte).

#[global] Instance byte_eq_dec : EqDecision byte := Byte.byte_eq_dec.

Definition CR : byte := x0d.
Definition LF : byte := x0a.

(** The two literals of line 12: [b'\r\n'] and [b'\n']. *)
Definition crlf : bytes := [CR; LF].
Definition lf : bytes := [LF].

(** ** [bytes.replace(old, new)]

    CPython scans the buffer from the left; at each position where [old]
    starts it emits [new] and resumes after the match, otherwise it copies
    the byte.  [replace_scan] does this with a counter [skip] of the bytes of
    the current match that are still to be passed over.  For an empty [old],
    CPython puts [new] before the first byte and after every byte. *)

Fixpoint startswith (prefix s : bytes) : bool :=
  match prefix, s with
  | [], _ => true
  | p :: prefix', b :: s' => bool_decide (p = b) && startswith prefix' s'
  | _ :: _, [] => false
  end.

Fixpoint replace_scan (old new : bytes) (skip : nat) (s : bytes) : bytes :=
  match s with
  | [] => []
  | b :: s' =>
      match skip with
      | S k => replace_scan old new k s'
      | O =>
          if startswith old s
          then new ++ replace_scan old new (length old - 1) s'
          else b :: replace_scan old new 0 s'
      end
  end.

Definition bytes_replace (old new s : bytes) : bytes :=
  match old with
  | [] => new ++ flat_map (fun b => b :: new) s
  | _ :: _ => replace_scan old new 0 s
  end.

(** Line 12: [content = content.replace(b'\r\n', b'\n')]. *)
Definition transform (content : bytes) : bytes :=
  bytes_replace crlf lf content.

(** ** Vocabulary for stating the contract *)

(** Number of positions of [s] at which the block [p] starts. *)
Fixpoint count_at (p s : bytes) : nat :=
  match s with
  | [] => 0
  | _ :: s' => (if startswith p s then 1 else 0) + count_at p s'
  end.

(** Number of CR LF pairs of [s] ([s.count(b'\r\n')]: two occurrences of
    this pattern cannot overlap, so every one of them is replaced). *)
Definition count_crlf (s : bytes) : nat := count_at crlf s.

(** Number of bytes of [s] equal to [b]. *)
Fixpoint count_byte (b : byte) (s : bytes) : nat :=
  match s with
  | [] => 0
  | c :: s' => (if bool_decide (c = b) then 1 else 0) + count_byte b s'
  end.

(** [sep.join(segs)]. *)
Fixpoint join (sep : bytes) (segs : list bytes) : bytes :=
  match segs with
  | [] => []
  | [seg] => seg
  | seg :: rest => seg ++ sep ++ join sep rest
  end.

(** [p] occurs in [s] as a contiguous block. *)
Definition occurs_in (p s : bytes) : Prop :=
  exists l r, s = l ++ p ++ r.

(** ** The working directory, the console and the effect log *)

(** What a bare name of the working directory can denote.  [os.path.exists]
    is true for both kinds of node; [open] raises on a directory and on a
    file whose permission bits forbid the requested mode. *)
Inductive node : Type :=
  | RegularFile (readable writable : bool) (content : bytes)
  | Directory.

Inductive mode : Type := Rb | Wb.

Inductive exn : Type :=
  | FileNotFoundError (name : string)
  | IsADirectoryError (name : string)
  | PermissionError (name : string).

(** One entry per interaction of the script with its environment. *)
Inductive effect : Type :=
  | EExists (name : string) (found : bool)
  | EPrint (line : string)
  | EOpen (name : string) (m : mode)
  | ERead (name : string) (content : bytes)
  | EWrite (name : string) (content : bytes)
  | EClose (name : string).

(** [iter] is the index held by the list iterator of the [for] loop; every
    logged effect is stamped with it. *)
Record world : Type := World {
  fs : gmap string node;
  stdout : list string;
  trace : list (nat * effect);
  iter : nat
}.

Inductive result (A : Type) : Type :=
  | Ok (a : A)
  | Raise (e : exn).
Arguments Ok {A} a.
Arguments Raise {A} e.

Definition M (A : Type) : Type := world -> result A * world.

#[global] Instance M_ret : MRet M := fun A a w => (Ok a, w).

#[global] Instance M_bind : MBind M := fun A B k m w =>
  match m w with
  | (Ok a, w') => k a w'
  | (Raise e, w') => (Raise e, w')
  end.

Definition raise {A : Type} (e : exn) : M A := fun w => (Raise e, w).

Definition log (e : effect) : M unit := fun w =>
  (Ok tt, World (fs w) (stdout w) (trace w ++ [(iter w, e)]) (iter w)).

Definition set_iter (i : nat) : M unit := fun w =>
  (Ok tt, World (fs w) (stdout w) (trace w) i).

Definition get_node (name : string) : M (option node) := fun w =>
  (Ok (fs w !! name), w).

Definition put_content (name : string) (r wr : bool) (content : bytes) : M unit :=
  fun w =>
    (Ok tt, World (<[name := RegularFile r wr content]> (fs w))
                  (stdout w) (trace w) (iter w)).

(** [os.path.exists(name)]. *)
Definition path_exists (name : string) : M bool :=
  n ← get_node name;
  let found := bool_decide (is_Some n) in
  log (EExists name found);;
  mret found.

(** [print(line)]. *)
Definition print (line : string) : M unit := fun w =>
  log (EPrint line)
      (World (fs w) (stdout w ++ [line]) (trace w) (iter w)).

(** [open(name, 'rb')]. *)
Definition open_rb (name : string) : M unit :=
  n ← get_node name;
  match n with
  | None => raise (FileNotFoundError name)
  | Some Directory => raise (IsADirectoryError name)
  | Some (RegularFile false _ _) => raise (PermissionError name)
  | Some (RegularFile true _ _) => log (EOpen name Rb)
  end.

(** [f.read()] on a handle opened by [open_rb]: the whole content. *)
Definition read_all (name : string) : M bytes :=
  n ← get_node name;
  match n with
  | Some (RegularFile _ _ content) => log (ERead name content);; mret content
  | _ => raise (FileNotFoundError name)
  end.

(** [open(name, 'wb')]: creates the file when absent, truncates it otherwise. *)
Definition open_wb (name : string) : M unit :=
  n ← get_node name;
  match n with
  | None => put_content name true true [];; log (EOpen name Wb)
  | Some Directory => raise (IsADirectoryError name)
  | Some (RegularFile _ false _) => raise (PermissionError name)
  | Some (RegularFile r true _) => put_content name r true [];; log (EOpen name Wb)
  end.

(** [f.write(data)] on a handle opened by [open_wb]. *)
Definition write_all (name : string) (data : bytes) : M unit :=
  n ← get_node name;
  match n with
  | Some (RegularFile r wr content) =>
      put_content name r wr (content ++ data);; log (EWrite name data)
  | _ => raise (FileNotFoundError name)
  end.

(** Leaving a [with] block. *)
Definition close (name : string) : M unit := log (EClose name).

(** ** The script *)

(** Line 3. *)
Definition files : list string :=
  ["entrypoint.sh"; "dashboard.sh"; "host_agent_unix.sh"; "run_unix.sh"]%string.

Definition msg_fixing (filename : string) : string :=
  ("Fixing " +:+ filename +:+ "...")%string.
Definition msg_fixed (filename : string) : string :=
  ("Fixed " +:+ filename)%string.
Definition msg_skipping (filename : string) : string :=
  ("Skipping " +:+ filename +:+ " (not found)")%string.

(** Lines 6 to 18: the body of the loop. *)
Definition body (filename : string) : M unit :=
  path_exists filename ≫= fun found : bool =>
  if found then
    print (msg_fixing filename);;
    open_rb filename;;
    content ← read_all filename;
    close filename;;
    let content := transform content in
    open_wb filename;;
    write_all filename content;;
    close filename;;
    print (msg_fixed filename)
  else
    print (msg_skipping filename).

(** Line 5: [for filename in files], from iterator index [i]. *)
Fixpoint for_each (i : nat) (l : list string) : M unit :=
  match l with
  | [] => mret tt
  | filename :: rest => set_iter i;; body filename;; for_each (S i) rest
  end.

Definition main : M unit := for_each 0 files.

Definition initial (files_on_disk : gmap string node) : world :=
  World files_on_disk [] [] 0.

(** ** One iteration of the loop, by the node found under the name

    Used to state what an iteration does; [body_eq] below proves that the
    script's [body] agrees with these. *)

Definition body_result (name : string) (n : option node) : result unit :=
  match n with
  | None | Some (RegularFile true true _) => Ok tt
  | Some Directory => Raise (IsADirectoryError name)
  | Some (RegularFile _ _ _) => Raise (PermissionError name)
  end.

Definition body_lines (name : string) (n : option node) : list string :=
  match n with
  | None => [msg_skipping name]
  | Some (RegularFile true true _) => [msg_fixing name; msg_fixed name]
  | Some _ => [msg_fixing name]
  end.

Definition body_effects (name : string) (n : option node) : list effect :=
  match n with
  | None => [EExists name false; EPrint (msg_skipping name)]
  | Some (RegularFile true wr c) =>
      [EExists name true; EPrint (msg_fixing name);
       EOpen name Rb; ERead name c; EClose name]
      ++ (if wr
          then [EOpen name Wb; EWrite name (transform c); EClose name;
                EPrint (msg_fixed name)]
          else [])
  | Some _ => [EExists name true; EPrint (msg_fixing name)]
  end.

Definition body_fs (name : string) (m : gmap string node) : gmap string node :=
  match m !! name with
  | Some (RegularFile true true c) =>
      <[name := RegularFile true true (transform c)]> m
  | _ => m
  end.

(** ** What a run leaves behind *)

(** The node found after a completed iteration, from the node found before:
    only a regular file that may be read and written is rewritten. *)
Definition fixed_node (o : option node) : option node :=
  match o with
  | Some (RegularFile true true c) => Some (RegularFile true true (transform c))
  | _ => o
  end.

(** Kind and permission bits of what a name denotes, without the content. *)
Definition node_shape (o : option node) : option (option (bool * bool)) :=
  match o with
  | None => None
  | Some Directory => Some None
  | Some (RegularFile r wr _) => Some (Some (r, wr))
  end.

(** What an iteration can process to its end: nothing under the name, or a
    regular file that may be read and written. *)
Definition processable (o : option node) : Prop :=
  o = None \/ exists c, o = Some (RegularFile true true c).

(** ** The working directory with links and input/output faults

    A second embedding of the script, over an environment in which several
    names can denote one file and in which any system call can fail.  A name
    of the working directory resolves (symbolic links followed) to an inode
    number; hard links and symbolic links make two names resolve to the same
    inode.  The environment decides, call by call, whether a system call
    fails: [schedule w n] is the fate of the [n]-th call, [None] to let it
    proceed and [Some k] to make it fail with [OSError], after [k] bytes in
    the case of a write.  Nothing else runs beside the script. *)
Module Posix.

Inductive exn : Type :=
  | FileNotFoundError (name : string)
  | IsADirectoryError (name : string)
  | PermissionError (name : string)
  | OSError (what : string).

Inductive effect : Type :=
  | EExists (name : string) (found : bool)
  | EPrint (line : string)
  | EOpen (name : string) (m : mode)
  | ERead (name : string) (content : bytes)
  | EWrite (name : string) (content : bytes)
  | EWriteFault (name : string) (written : bytes)
  | EClose (name : string).

Record world : Type := World {
  names : gmap string nat;
  inodes : gmap nat node;
  schedule : nat -> option nat;
  clock : nat;
  stdout : list string;
  trace : list (nat * effect);
  iter : nat
}.

Inductive result (A : Type) : Type :=
  | Ok (a : A)
  | Raise (e : exn).
Arguments Ok {A} a.
Arguments Raise {A} e.

Definition M (A : Type) : Type := world -> result A * world.

#[global] Instance M_ret : MRet M := fun A a w => (Ok a, w).

#[global] Instance M_bind : MBind M := fun A B k m w =>
  match m w with
  | (Ok a, w') => k a w'
  | (Raise e, w') => (Raise e, w')
  end.

Definition raise {A : Type} (e : exn) : M A := fun w => (Raise e, w).

Definition log (e : effect) : M unit := fun w =>
  (Ok tt, World (names w) (inodes w) (schedule w) (clock w) (stdout w)
                (trace w ++ [(iter w, e)]) (iter w)).

Definition at_iter (i : nat) (w : world) : world :=
  World (names w) (inodes w) (schedule w) (clock w) (stdout w) (trace w) i.

Definition set_iter (i : nat) : M unit := fun w => (Ok tt, at_iter i w).

(** Entering a system call: its fate is read off the schedule. *)
Definition syscall : M (option nat) := fun w =>
  (Ok (schedule w (clock w)),
   World (names w) (inodes w) (schedule w) (S (clock w)) (stdout w)
         (trace w) (iter w)).

(** What a name denotes: nothing when there is no such directory entry or
    when it is a symbolic link to nothing. *)
Definition resolve (w : world) (name : string) : option node :=
  names w !! name ≫= fun ino => inodes w !! ino.

Definition stat (name : string) : M (option node) := fun w =>
  (Ok (resolve w name), w).

(** Storing a node under a name goes through to the inode of the name; a
    name without directory entry gets a new inode. *)
Definition store (name : string) (n : node) : M unit := fun w =>
  match names w !! name with
  | Some ino =>
      (Ok tt, World (names w) (<[ino := n]> (inodes w)) (schedule w) (clock w)
                    (stdout w) (trace w) (iter w))
  | None =>
      let ino := fresh (dom (inodes w)) in
      (Ok tt, World (<[name := ino]> (names w)) (<[ino := n]> (inodes w))
                    (schedule w) (clock w) (stdout w) (trace w) (iter w))
  end.

(** [os.path.exists(name)]: a failing [stat] is reported as [False]. *)
Definition path_exists (name : string) : M bool :=
  fate ← syscall;
  n ← stat name;
  let found :=
    match fate with
    | None => bool_decide (is_Some n)
    | Some _ => false
    end in
  log (EExists name found);;
  mret found.

(** [print(line)]. *)
Definition print (line : string) : M unit :=
  fate ← syscall;
  match fate with
  | Some _ => raise (OSError "stdout")
  | None => fun w =>
      log (EPrint line)
          (World (names w) (inodes w) (schedule w) (clock w)
                 (stdout w ++ [line]) (trace w) (iter w))
  end.

(** [open(name, 'rb')]. *)
Definition open_rb (name : string) : M unit :=
  fate ← syscall;
  n ← stat name;
  match n with
  | None => raise (FileNotFoundError name)
  | Some Directory => raise (IsADirectoryError name)
  | Some (RegularFile false _ _) => raise (PermissionError name)
  | Some (RegularFile true _ _) =>
      match fate with
      | Some _ => raise (OSError name)
      | None => log (EOpen name Rb)
      end
  end.

(** [f.read()]: the whole content, or a failure. *)
Definition read_all (name : string) : M bytes :=
  fate ← syscall;
  n ← stat name;
  match n, fate with
  | Some (RegularFile _ _ content), None =>
      log (ERead name content);; mret content
  | Some (RegularFile _ _ _), Some _ => raise (OSError name)
  | _, _ => raise (FileNotFoundError name)
  end.

(** [open(name, 'wb')]: creates the file when absent, truncates it otherwise;
    a failing call leaves the file as it was. *)
Definition open_wb (name : string) : M unit :=
  fate ← syscall;
  n ← stat name;
  match n with
  | Some Directory => raise (IsADirectoryError name)
  | Some (RegularFile _ false _) => raise (PermissionError name)
  | Some (RegularFile r true _) =>
      match fate with
      | Some _ => raise (OSError name)
      | None => store name (RegularFile r true []);; log (EOpen name Wb)
      end
  | None =>
      match fate with
      | Some _ => raise (OSError name)
      | None => store name (RegularFile true true []);; log (EOpen name Wb)
      end
  end.

(** [f.write(data)], with the flush that follows it: all of [data] reaches
    the file, or the first [k] bytes do and the call fails. *)
Definition write_all (name : string) (data : bytes) : M unit :=
  fate ← syscall;
  n ← stat name;
  match n with
  | Some (RegularFile r wr content) =>
      match fate with
      | None =>
          store name (RegularFile r wr (content ++ data));;
          log (EWrite name data)
      | Some k =>
          store name (RegularFile r wr (content ++ take k data));;
          log (EWriteFault name (take k data));;
          raise (OSError name)
      end
  | _ => raise (FileNotFoundError name)
  end.

Definition close (name : string) : M unit := log (EClose name).

(** Leaving a [with] block: the file is closed, also when the block raised. *)
Definition closing {A : Type} (name : string) (blk : M A) : M A := fun w =>
  match blk w with
  | (Ok a, w') => (close name;; mret a) w'
  | (Raise e, w') => (close name;; raise e) w'
  end.

(** [with opn as f: blk]. *)
Definition with_file {A : Type} (name : string) (opn : M unit) (blk : M A)
  : M A :=
  opn;; closing name blk.

(** Lines 6 to 18. *)
Definition body (filename : string) : M unit :=
  path_exists filename ≫= fun found : bool =>
  if found then
    print (msg_fixing filename);;
    content ← with_file filename (open_rb filename) (read_all filename);
    let content := transform content in
    with_file filename (open_wb filename) (write_all filename content);;
    print (msg_fixed filename)
  else
    print (msg_skipping filename).

(** Line 5. *)
Fixpoint for_each (i : nat) (l : list string) : M unit :=
  match l with
  | [] => mret tt
  | filename :: rest => set_iter i;; body filename;; for_each (S i) rest
  end.

Definition main : M unit := for_each 0 files.

(** [e] is an effect on the file [name], or a console line about it. *)
Definition concerns (name : string) (e : effect) : Prop :=
  match e with
  | EExists n _ | EOpen n _ | ERead n _ | EWrite n _ | EWriteFault n _
  | EClose n => n = name
  | EPrint line => line ∈ [msg_fixing name; msg_fixed name; msg_skipping name]
  end.

(** The effects of an iteration that skips its file. *)
Definition skip_block (name : string) : list effect :=
  [EExists name false; EPrint (msg_skipping name)].

(** The effects of an iteration that reads the content [c] and rewrites the
    file. *)
Definition full_block (name : string) (c : bytes) : list effect :=
  [EExists name true; EPrint (msg_fixing name);
   EOpen name Rb; ERead name c; EClose name;
   EOpen name Wb; EWrite name (transform c); EClose name;
   EPrint (msg_fixed name)].

(** An iteration carried to its end: the file was skipped, or it was read in
    whole and written in whole. *)
Definition complete (name : string) (b : list effect) : Prop :=
  b = skip_block name \/ exists c, b = full_block name c.

(** The effects stamped [k], in the order of the log. *)
Definition effects_at (k : nat) (tr : list (nat * effect)) : list effect :=
  (filter (fun x => x.1 = k) tr).*2.

(** The state after an iteration that made [calls] system calls, left the
    inode table [tbl] and the console [out], and logged the effects [b]. *)
Definition after (w : world) (calls : nat) (tbl : gmap nat node)
    (out : list string) (b : list effect) : world :=
  World (names w) tbl (schedule w) (calls + clock w) out
        (trace w ++ (pair (iter w) <$> b)) (iter w).

(** The ways an iteration can go.  [fate w j] is the fate of the [j]-th
    system call of the iteration. *)
Definition fate (w : world) (j : nat) : option nat := schedule w (j + clock w).

Inductive iteration (name : string) (w : world) : result unit -> world -> Prop :=
  | it_skip :
      fate w 0 <> None \/ resolve w name = None ->
      fate w 1 = None ->
      iteration name w (Ok tt)
        (after w 2 (inodes w) (stdout w ++ [msg_skipping name])
           (skip_block name))
  | it_skip_fault (k : nat) :
      fate w 0 <> None \/ resolve w name = None ->
      fate w 1 = Some k ->
      iteration name w (Raise (OSError "stdout"))
        (after w 2 (inodes w) (stdout w) [EExists name false])
  | it_start_fault (ino : nat) (nd : node) (k : nat) :
      names w !! name = Some ino -> inodes w !! ino = Some nd ->
      fate w 0 = None -> fate w 1 = Some k ->
      iteration name w (Raise (OSError "stdout"))
        (after w 2 (inodes w) (stdout w) [EExists name true])
  | it_open_rb_fault (ino : nat) (nd : node) (e : exn) :
      names w !! name = Some ino -> inodes w !! ino = Some nd ->
      fate w 0 = None -> fate w 1 = None ->
      (nd = Directory /\ e = IsADirectoryError name) \/
      (exists wr c, nd = RegularFile false wr c /\ e = PermissionError name) \/
      (exists wr c k, nd = RegularFile true wr c /\ fate w 2 = Some k /\
                      e = OSError name) ->
      iteration name w (Raise e)
        (after w 3 (inodes w) (stdout w ++ [msg_fixing name])
           [EExists name true; EPrint (msg_fixing name)])
  | it_read_fault (ino : nat) (wr : bool) (c : bytes) (k : nat) :
      names w !! name = Some ino ->
      inodes w !! ino = Some (RegularFile true wr c) ->
      fate w 0 = None -> fate w 1 = None -> fate w 2 = None ->
      fate w 3 = Some k ->
      iteration name w (Raise (OSError name))
        (after w 4 (inodes w) (stdout w ++ [msg_fixing name])
           [EExists name true; EPrint (msg_fixing name);
            EOpen name Rb; EClose name])
  | it_open_wb_fault (ino : nat) (wr : bool) (c : bytes) (e : exn) :
      names w !! name = Some ino ->
      inodes w !! ino = Some (RegularFile true wr c) ->
      fate w 0 = None -> fate w 1 = None -> fate w 2 = None ->
      fate w 3 = None ->
      (wr = false /\ e = PermissionError name) \/
      (exists k, wr = true /\ fate w 4 = Some k /\ e = OSError name) ->
      iteration name w (Raise e)
        (after w 5 (inodes w) (stdout w ++ [msg_fixing name])
           [EExists name true; EPrint (msg_fixing name);
            EOpen name Rb; ERead name c; EClose name])
  | it_write_fault (ino : nat) (c : bytes) (k : nat) :
      names w !! name = Some ino ->
      inodes w !! ino = Some (RegularFile true true c) ->
      fate w 0 = None -> fate w 1 = None -> fate w 2 = None ->
      fate w 3 = None -> fate w 4 = None -> fate w 5 = Some k ->
      iteration name w (Raise (OSError name))
        (after w 6
           (<[ino := RegularFile true true (take k (transform c))]> (inodes w))
           (stdout w ++ [msg_fixing name])
           [EExists name true; EPrint (msg_fixing name);
            EOpen name Rb; ERead name c; EClose name;
            EOpen name Wb; EWriteFault name (take k (transform c));
            EClose name])
  | it_done_fault (ino : nat) (c : bytes) (k : nat) :
      names w !! name = Some ino ->
      inodes w !! ino = Some (RegularFile true true c) ->
      fate w 0 = None -> fate w 1 = None -> fate w 2 = None ->
      fate w 3 = None -> fate w 4 = None -> fate w 5 = None ->
      fate w 6 = Some k ->
      iteration name w (Raise (OSError "stdout"))
        (after w 7
           (<[ino := RegularFile true true (transform c)]> (inodes w))
           (stdout w ++ [msg_fixing name])
           [EExists name true; EPrint (msg_fixing name);
            EOpen name Rb; ERead name c; EClose name;
            EOpen name Wb; EWrite name (transform c); EClose name])
  | it_done (ino : nat) (c : bytes) :
      names w !! name = Some ino ->
      inodes w !! ino = Some (RegularFile true true c) ->
      fate w 0 = None -> fate w 1 = None -> fate w 2 = None ->
      fate w 3 = None -> fate w 4 = None -> fate w 5 = None ->
      fate w 6 = None ->
      iteration name w (Ok tt)
        (after w 7
           (<[ino := RegularFile true true (transform c)]> (inodes w))
           (stdout w ++ [msg_fixing name; msg_fixed name])
           (full_block name c)).

(** Shape of the log of the loop over [l] from index [i]: one block per
    entry reached, and a block is followed by another only when its iteration
    was carried to its end. *)
Inductive run_blocks :
  nat -> list string -> result unit -> list (nat * effect) -> Prop :=
  | rb_nil (i : nat) : run_blocks i [] (Ok tt) []
  | rb_fault (i : nat) (name : string) (rest : list string) (e : exn)
      (b : list effect) :
      Forall (concerns name) b ->
      run_blocks i (name :: rest) (Raise e) (pair i <$> b)
  | rb_next (i : nat) (name : string) (rest : list string) (r : result unit)
      (b : list effect) (tr : list (nat * effect)) :
      complete name b ->
      run_blocks (S i) rest r tr ->
      run_blocks i (name :: rest) r ((pair i <$> b) ++ tr).

(** Number of entries of [l] that resolve to the inode [ino]. *)
Definition links (w : world) (l : list string) (ino : nat) : nat :=
  length (filter (fun name => names w !! name = Some ino) l).

(** The console lines of an entry in a run without fault. *)
Definition lines_for (w : world) (name : string) : list string :=
  if bool_decide (is_Some (resolve w name))
  then [msg_fixing name; msg_fixed name]
  else [msg_skipping name].

End Posix.

(** ** From the second model to the first *)

(** The working directory of the first model that a state of the second
    denotes: each name with the node it resolves to. *)
Definition fs_of (v : Posix.world) : gmap string node :=
  omap (fun ino => Posix.inodes v !! ino) (Posix.names v).

(** No two names resolve to the same inode. *)
Definition unlinked (v : Posix.world) : Prop :=
  forall n1 n2 ino,
    Posix.names v !! n1 = Some ino -> Posix.names v !! n2 = Some ino -> n1 = n2.

(** ** Sample inputs *)

(** [b"mixed\r\nand\nlone\r"] and [b"mixed\nand\nlone\r"]. *)
Definition scenario_c_in : bytes :=
  [x6d; x69; x78; x65; x64; x0d; x0a; x61; x6e; x64; x0a; x6c; x6f; x6e; x65; x0d].
Definition scenario_c_out : bytes :=
  [x6d; x69; x78; x65; x64; x0a; x61; x6e; x64; x0a; x6c; x6f; x6e; x65; x0d].

(** [b"already\nunix\n"]. *)
Definition scenario_b : bytes :=
  [x61; x6c; x72; x65; x61; x64; x79; x0a; x75; x6e; x69; x78; x0a].

(** A working directory holding one of the four scripts, with Windows line
    endings. *)
Definition one_script : world :=
  initial {[ "entrypoint.sh"%string := RegularFile true true [x61; x0d; x0a] ]}.

(** The same bytes under another name, in a run that is already under way. *)
Definition other_script : world :=
  World {[ "dashboard.sh"%string := RegularFile true true [x61; x0d; x0a];
           "logs"%string := Directory ]}
        ["Skipping entrypoint.sh (not found)"%string]
        [(0, EExists "entrypoint.sh"%string false);
         (0, EPrint "Skipping entrypoint.sh (not found)"%string)]
        1.

(** A working directory holding a script that already has Unix line endings. *)
Definition unix_script : world :=
  initial {[ "run_unix.sh"%string := RegularFile true true scenario_b ]}.

(** A working directory in which [run_unix.sh] is a hard link to
    [entrypoint.sh], and which holds a file that is not in the list; no
    system call fails. *)
Definition linked_dir : Posix.world :=
  Posix.World
    {[ "entrypoint.sh"%string := 1; "run_unix.sh"%string := 1;
       "dashboard.sh"%string := 2; "notes.txt"%string := 3 ]}
    {[ 1 := RegularFile true true [x61; x0d; x0d; x0a];
       2 := RegularFile true true [x62; x0d; x0a];
       3 := RegularFile true true [x63; x0d; x0a] ]}
    (fun _ => None) 0 [] [] 0.

(** A working directory in which the sixth system call, the write to
    [entrypoint.sh], fails after two bytes. *)
Definition disk_full : Posix.world :=
  Posix.World
    {[ "entrypoint.sh"%string := 1; "run_unix.sh"%string := 4 ]}
    {[ 1 := RegularFile true true [x61; x0d; x0a; x62];
       4 := RegularFile true true [x63; x0d; x0a] ]}
    (fun n => if bool_decide (n = 5) then Some 2 else None) 0 [] [] 0.

(** ** Equations of [transform] *)

Lemma transform_nil : transform [] = [].
Proof. reflexivity. Qed.

Lemma transform_crlf (s : bytes) : transform (CR :: LF :: s) = LF :: transform s.
Proof. reflexivity. Qed.

Lemma transform_not_cr (b : byte) (s : bytes) :
  b <> CR -> transform (b :: s) = b :: transform s.
Proof.
  intros Hb. unfold transform, bytes_replace, crlf. simpl.
  rewrite bool_decide_eq_false_2 by congruence. reflexivity.
Qed.

Lemma transform_cr_end : transform [CR] = [CR].
Proof. reflexivity. Qed.

Lemma transform_cr_other (c : byte) (s : bytes) :
  c <> LF -> transform (CR :: c :: s) = CR :: transform (c :: s).
Proof.
  intros Hc. unfold transform, bytes_replace, crlf. simpl.
  rewrite (bool_decide_eq_false_2 (LF = c)) by congruence. reflexivity.
Qed.

Example transform_scenario_a :
  transform [x6c; x69; x6e; x65; x31; x0d; x0a; x6c; x69; x6e; x65; x32; x0d; x0a]
  = [x6c; x69; x6e; x65; x31; x0a; x6c; x69; x6e; x65; x32; x0a].
Proof. reflexivity. Qed.

(** ** The scan, case by case *)

Lemma startswith_spec (p s : bytes) :
  startswith p s = true <-> exists r, s = p ++ r.
Proof.
  revert s. induction p as [|a p IH]; intros s; simpl.
  - split; eauto.
  - destruct s as [|b s].
    + split; [discriminate | intros [r Hr]; discriminate].
    + rewrite andb_true_iff, bool_decide_eq_true, IH. split.
      * intros [-> [r ->]]. eauto.
      * intros [r Hr]. injection Hr as -> ->. eauto.
Qed.

Lemma startswith_crlf_true (b : byte) (s : bytes) :
  startswith crlf (b :: s) = true -> b = CR /\ exists t, s = LF :: t.
Proof.
  intros H. apply startswith_spec in H as [r Hr].
  injection Hr as -> ->. eauto.
Qed.

Lemma transform_other (b : byte) (s : bytes) :
  startswith crlf (b :: s) = false -> transform (b :: s) = b :: transform s.
Proof.
  intros H. unfold transform, bytes_replace, crlf in *.
  cbn [replace_scan]. rewrite H. reflexivity.
Qed.

(** Induction along the scan: a matched pair is consumed whole, any other
    byte alone. *)
Lemma scan_ind (P : bytes -> Prop) :
  P [] ->
  (forall t, P t -> P (CR :: LF :: t)) ->
  (forall b t, startswith crlf (b :: t) = false -> P t -> P (b :: t)) ->
  forall s, P s.
Proof.
  intros Hnil Hpair Hone s.
  assert (H : P s /\ forall b, P (b :: s)); [| exact (proj1 H)].
  induction s as [|c s [IH1 IH2]].
  - split; [exact Hnil |]. intros b. apply Hone; [| exact Hnil].
    simpl. apply andb_false_r.
  - split; [apply IH2 |]. intros b.
    destruct (startswith crlf (b :: c :: s)) eqn:E.
    + apply startswith_crlf_true in E as [-> [t Ht]].
      injection Ht as -> ->. apply Hpair, IH1.
    + apply Hone; [exact E | apply IH2].
Qed.

Lemma count_crlf_pair (s : bytes) :
  count_crlf (CR :: LF :: s) = S (count_crlf s).
Proof. reflexivity. Qed.

Lemma count_crlf_other (b : byte) (s : bytes) :
  startswith crlf (b :: s) = false -> count_crlf (b :: s) = count_crlf s.
Proof. intros H. unfold count_crlf. cbn [count_at]. rewrite H. reflexivity. Qed.

Lemma transform_length (s : bytes) :
  length (transform s) + count_crlf s = length s.
Proof.
  induction s as [| t IH | b t Hb IH] using scan_ind.
  - reflexivity.
  - rewrite transform_crlf, count_crlf_pair. simpl. lia.
  - rewrite transform_other, count_crlf_other by exact Hb. simpl. lia.
Qed.

(** A buffer is fixed by the scan exactly when no pair occurs in it. *)
Lemma transform_fixed_iff (s : bytes) :
  transform s = s <-> count_crlf s = 0.
Proof.
  split.
  - intros H. pose proof (transform_length s) as L. rewrite H in L. lia.
  - induction s as [|b s IH]; [reflexivity |].
    unfold count_crlf in *. cbn [count_at]. intros H.
    destruct (startswith crlf (b :: s)) eqn:E; [discriminate |].
    rewrite transform_other by exact E. f_equal. apply IH. exact H.
Qed.

Lemma count_crlf_no_cr (s : bytes) : CR ∉ s -> count_crlf s = 0.
Proof.
  induction s as [|b s IH]; [reflexivity |].
  intros H. apply not_elem_of_cons in H as [Hb Hs].
  rewrite count_crlf_other; [apply IH, Hs |].
  simpl. rewrite bool_decide_eq_false_2 by congruence. reflexivity.
Qed.

(** ** Segments between pairs *)

Lemma join_cons2 (sep seg seg' : bytes) (rest : list bytes) :
  join sep (seg :: seg' :: rest) = seg ++ sep ++ join sep (seg' :: rest).
Proof. reflexivity. Qed.

Lemma startswith_crlf_app (b : byte) (seg rest : bytes) :
  startswith crlf (b :: seg) = false ->
  startswith crlf (b :: seg ++ CR :: LF :: rest) = false.
Proof.
  destruct seg as [|c seg]; [| intros H; exact H].
  intros _. simpl. apply andb_false_r.
Qed.

Lemma transform_segment (seg rest : bytes) :
  count_crlf seg = 0 ->
  transform (seg ++ CR :: LF :: rest) = seg ++ LF :: transform rest.
Proof.
  induction seg as [|b seg IH]; intros H.
  - apply transform_crlf.
  - unfold count_crlf in *. cbn [count_at] in H.
    destruct (startswith crlf (b :: seg)) eqn:E; [discriminate |].
    rewrite <- app_comm_cons, transform_other
      by (apply startswith_crlf_app; exact E).
    rewrite IH by exact H. reflexivity.
Qed.

Lemma transform_join (segs : list bytes) :
  Forall (fun seg => count_crlf seg = 0) segs ->
  transform (join crlf segs) = join lf segs.
Proof.
  induction segs as [|seg [|seg' rest] IH]; intros H.
  - reflexivity.
  - simpl. apply transform_fixed_iff. apply Forall_inv in H. exact H.
  - rewrite !join_cons2. pose proof (Forall_inv H) as Hseg.
    apply Forall_inv_tail in H. unfold crlf at 1. cbn [app].
    rewrite transform_segment by exact Hseg. rewrite IH by exact H.
    reflexivity.
Qed.

Lemma split_exists (s : bytes) :
  exists segs,
    Forall (fun seg => count_crlf seg = 0) segs /\
    s = join crlf segs /\
    length segs = S (count_crlf s).
Proof.
  induction s as [| t IH | b t Hb IH] using scan_ind.
  - exists [[]]. repeat split. constructor; [reflexivity | constructor].
  - destruct IH as (segs & Hfree & -> & Hlen).
    destruct segs as [|seg rest]; [discriminate |].
    exists ([] :: seg :: rest). repeat split.
    + constructor; [reflexivity | exact Hfree].
    + rewrite count_crlf_pair. simpl in *. lia.
  - destruct IH as (segs & Hfree & Ht & Hlen).
    destruct segs as [|seg rest]; [discriminate |].
    exists ((b :: seg) :: rest).
    assert (Hbseg : startswith crlf (b :: seg) = false).
    { destruct seg as [|c seg]; [simpl; apply andb_false_r |].
      subst t. destruct rest; exact Hb. }
    repeat split.
    + constructor; [| exact (Forall_inv_tail Hfree)].
      rewrite count_crlf_other by exact Hbseg. exact (Forall_inv Hfree).
    + subst t. destruct rest; reflexivity.
    + rewrite count_crlf_other by exact Hb. simpl in *. lia.
Qed.

(** ** Pairs produced by the scan itself *)

(** A CR in front of a matched pair survives and meets the LF written for
    that pair: the pairs of the output are the blocks CR CR LF of the input. *)
Lemma transform_new_pairs (s : bytes) :
  count_crlf (transform s) = count_at [CR; CR; LF] s.
Proof.
  induction s as [| t IH | b t Hb IH] using scan_ind.
  - reflexivity.
  - rewrite transform_crlf. unfold count_crlf in *.
    cbn [count_at]. rewrite IH. reflexivity.
  - rewrite transform_other by exact Hb. unfold count_crlf in *.
    cbn [count_at]. rewrite IH. f_equal.
    destruct (decide (b = CR)) as [-> | Hne].
    2:{ simpl. rewrite !bool_decide_eq_false_2 by congruence. reflexivity. }
    destruct t as [|c t]; [reflexivity |].
    destruct (decide (c = LF)) as [-> | HcLF]; [discriminate Hb |].
    destruct (decide (c = CR)) as [-> | HcCR].
    + destruct t as [|d t]; [reflexivity |].
      destruct (decide (d = LF)) as [-> | HdLF]; [reflexivity |].
      rewrite transform_cr_other by exact HdLF. simpl.
      rewrite (bool_decide_eq_false_2 (LF = d)) by congruence.
      reflexivity.
    + rewrite transform_not_cr by exact HcCR. simpl.
      rewrite (bool_decide_eq_false_2 (LF = c)) by congruence.
      rewrite (bool_decide_eq_false_2 (CR = c)) by congruence.
      reflexivity.
Qed.

Lemma count_at_occurs (p s : bytes) :
  p <> [] -> (count_at p s <> 0 <-> occurs_in p s).
Proof.
  intros Hp. split.
  - induction s as [|b s IH]; [intros H; exfalso; apply H; reflexivity |].
    cbn [count_at]. destruct (startswith p (b :: s)) eqn:E.
    + intros _. apply startswith_spec in E as [r Hr].
      exists [], r. exact Hr.
    + intros H. destruct (IH H) as (l & r & ->). exists (b :: l), r. reflexivity.
  - intros (l & r & ->). induction l as [|b l IH].
    + destruct p as [|a p]; [congruence |]. cbn [app count_at].
      replace (startswith (a :: p) (a :: p ++ r)) with true; [lia |].
      symmetry. apply startswith_spec. exists r. reflexivity.
    + cbn [app count_at]. lia.
Qed.

(** ** One iteration of the loop *)

Lemma body_eq (name : string) (w : world) :
  body name w =
  (body_result name (fs w !! name),
   World (body_fs name (fs w))
         (stdout w ++ body_lines name (fs w !! name))
         (trace w ++ (pair (iter w) <$> body_effects name (fs w !! name)))
         (iter w)).
Proof.
  destruct w as [m out tr i].
  unfold body, body_fs, path_exists, print, open_rb, read_all, close, open_wb,
    write_all, get_node, put_content, log, raise, mbind, M_bind, mret, M_ret.
  cbn -[transform lookup insert].
  destruct (m !! name) as [[[|] [|] c|]|] eqn:E;
    repeat (cbn -[transform lookup insert];
            rewrite ?E, ?lookup_insert_eq, ?insert_insert_eq, <- ?app_assoc);
    reflexivity.
Qed.

Lemma for_each_cons (i : nat) (name : string) (rest : list string) (w : world) :
  for_each i (name :: rest) w =
  match body name (World (fs w) (stdout w) (trace w) i) with
  | (Ok _, w') => for_each (S i) rest w'
  | (Raise e, w') => (Raise e, w')
  end.
Proof. reflexivity. Qed.

(** ** The contract of the transformation *)

(** C1. Correctness of substitution: every buffer splits into segments free
    of CR LF, separated by the CR LF pairs; the transform keeps the segments
    byte for byte, in place, and writes one LF for each separating pair
    (lone CR and lone LF bytes lie inside segments).  Read from the left, the
    transform consumes a pair where one starts and copies the byte otherwise. *)
Theorem transform_replaces_each_pair (C : bytes) :
  (exists segs : list bytes,
      Forall (fun seg => count_crlf seg = 0) segs /\
      C = join crlf segs /\
      transform C = join lf segs /\
      length segs = S (count_crlf C)) /\
  transform C =
    match C with
    | [] => []
    | b :: t =>
        if startswith crlf C then LF :: transform (tail t)
        else b :: transform t
    end.
Proof.
  split.
  - destruct (split_exists C) as (segs & Hfree & HC & Hlen).
    exists segs. repeat split; try assumption.
    rewrite HC at 1. apply transform_join, Hfree.
  - destruct C as [|b t]; [reflexivity |].
    destruct (startswith crlf (b :: t)) eqn:E.
    + apply startswith_crlf_true in E as [-> [t' ->]]. reflexivity.
    + apply transform_other, E.
Qed.

(** C2, as stated, fails: on CR CR LF the first pass yields CR LF, which the
    second pass turns into LF. *)
Lemma transform_not_idempotent :
  transform [CR; CR; LF] = [CR; LF] /\
  transform (transform [CR; CR; LF]) = [LF] /\
  transform (transform [CR; CR; LF]) <> transform [CR; CR; LF].
Proof. repeat split. discriminate. Qed.

(** C2, amended.  A second pass changes nothing exactly when the input of
    the first pass holds no block CR CR LF. *)
Theorem transform_idempotent_iff (C : bytes) :
  transform (transform C) = transform C <-> ~ occurs_in [CR; CR; LF] C.
Proof.
  rewrite transform_fixed_iff, transform_new_pairs.
  rewrite <- (count_at_occurs [CR; CR; LF] C) by discriminate.
  split; [intros H; rewrite H; intros F; apply F; reflexivity |].
  intros H. destruct (count_at [CR; CR; LF] C); [reflexivity |].
  exfalso. apply H. discriminate.
Qed.

Lemma transform_idempotent_scenario_c :
  ~ occurs_in [CR; CR; LF] scenario_c_in /\
  transform (transform scenario_c_in) = transform scenario_c_in.
Proof.
  assert (H : ~ occurs_in [CR; CR; LF] scenario_c_in).
  { intros H. apply (count_at_occurs [CR; CR; LF]) in H; [| discriminate].
    apply H. reflexivity. }
  split; [exact H |].
  exact (proj2 (transform_idempotent_iff scenario_c_in) H).
Defined.

(** C4. Length relationship: the output is no longer than the input, and
    shorter by exactly the number of CR LF pairs of the input. *)
Theorem transform_length_relation (C : bytes) :
  length (transform C) <= length C /\
  length C - length (transform C) = count_crlf C.
Proof. pose proof (transform_length C). lia. Qed.

(** C6. Scenario C: [b"mixed\r\nand\nlone\r"] becomes [b"mixed\nand\nlone\r"]. *)
Theorem transform_scenario_c : transform scenario_c_in = scenario_c_out.
Proof. reflexivity. Qed.

(** C8. The transform preserves the number of LF bytes. *)
Theorem transform_preserves_lf_count (C : bytes) :
  count_byte LF (transform C) = count_byte LF C.
Proof.
  induction C as [| t IH | b t Hb IH] using scan_ind.
  - reflexivity.
  - rewrite transform_crlf. simpl. rewrite IH. reflexivity.
  - rewrite transform_other by exact Hb. simpl. rewrite IH. reflexivity.
Qed.

(** C9. The transform is the identity on a buffer without CR, the empty
    buffer included; a file whose content has no CR is rewritten with the
    same bytes, so the working directory is unchanged. *)
Theorem transform_identity_without_cr (C : bytes) (H : CR ∉ C) :
  transform [] = [] /\
  transform C = C /\
  forall (name : string) (w : world),
    fs w !! name = Some (RegularFile true true C) ->
    (body name w).1 = Ok tt /\ fs (body name w).2 = fs w.
Proof.
  assert (HC : transform C = C) by apply transform_fixed_iff, count_crlf_no_cr, H.
  split; [reflexivity |]. split; [exact HC |].
  intros name w Hw. rewrite body_eq. cbn [fst snd fs]. split.
  - rewrite Hw. reflexivity.
  - unfold body_fs. rewrite Hw, HC. apply insert_id, Hw.
Qed.

Lemma transform_identity_scenario_b :
  (CR ∉ scenario_b) /\
  transform [] = [] /\
  transform scenario_b = scenario_b /\
  forall (name : string) (w : world),
    fs w !! name = Some (RegularFile true true scenario_b) ->
    (body name w).1 = Ok tt /\ fs (body name w).2 = fs w.
Proof.
  assert (H : CR ∉ scenario_b).
  { unfold scenario_b, CR.
    repeat (apply not_elem_of_cons; split; [discriminate |]).
    apply not_elem_of_nil. }
  split; [exact H |].
  exact (transform_identity_without_cr scenario_b H).
Defined.

(** ** The contract of the loop *)

(** C3. Skip on absence: when the name is not in the working directory, the
    iteration ends normally, leaves the directory as it was (the file is not
    created), prints the skip notice naming the file, and the loop goes on
    with the next entry. *)
Theorem skip_on_absence (i : nat) (name : string) (rest : list string)
    (w : world) (H : fs w !! name = None) :
  exists w' : world,
    body name (World (fs w) (stdout w) (trace w) i) = (Ok tt, w') /\
    fs w' = fs w /\
    fs w' !! name = None /\
    stdout w' = stdout w ++ [msg_skipping name] /\
    for_each i (name :: rest) w = for_each (S i) rest w'.
Proof.
  rewrite for_each_cons, body_eq. cbn [fs stdout trace iter].
  unfold body_fs. rewrite H. cbn [body_result body_lines].
  eexists. repeat split. exact H.
Qed.

Lemma skip_on_absence_dashboard :
  fs one_script !! "dashboard.sh"%string = None /\
  exists w' : world,
    body "dashboard.sh"%string
      (World (fs one_script) (stdout one_script) (trace one_script) 1)
    = (Ok tt, w') /\
    fs w' = fs one_script /\
    fs w' !! "dashboard.sh"%string = None /\
    stdout w' = stdout one_script ++ [msg_skipping "dashboard.sh"%string] /\
    for_each 1 ["dashboard.sh"; "host_agent_unix.sh"; "run_unix.sh"]%string
      one_script
    = for_each 2 ["host_agent_unix.sh"; "run_unix.sh"]%string w'.
Proof.
  assert (H : fs one_script !! "dashboard.sh"%string = None) by reflexivity.
  split; [exact H |].
  exact (skip_on_absence 1 "dashboard.sh"%string
           ["host_agent_unix.sh"; "run_unix.sh"]%string one_script H).
Defined.

(** C5, as stated, fails: a file that exists gets two console lines, so a run
    over the four names with one script present prints five lines. *)
Lemma two_lines_for_a_fixed_file :
  stdout (body "entrypoint.sh"%string one_script).2
    = ["Fixing entrypoint.sh..."; "Fixed entrypoint.sh"]%string /\
  (main one_script).1 = Ok tt /\
  length (stdout (main one_script).2) = 5 /\
  length (stdout (main one_script).2) <> length files.
Proof. vm_compute. repeat split. discriminate. Qed.

(** C5, amended.  An iteration prints the skip notice alone when the file is
    absent; otherwise it prints the starting line, followed by the
    completion line when the file was rewritten, and by nothing when the
    iteration stopped on a fault. *)
Theorem console_lines_per_file (name : string) (w : world) :
  stdout (body name w).2 =
  stdout w ++
    match fs w !! name with
    | None => [msg_skipping name]
    | Some (RegularFile true true _) => [msg_fixing name; msg_fixed name]
    | Some _ => [msg_fixing name]
    end.
Proof.
  rewrite body_eq. cbn [snd stdout]. unfold body_lines.
  destruct (fs w !! name) as [[[|] [|] c|]|]; reflexivity.
Qed.

(** C10. The bytes written for a file are a function of the bytes read:
    equal contents under any two names, in any two states of the run, lead
    to equal contents after the iteration, namely their transform. *)
Theorem written_bytes_depend_on_read_bytes (name1 name2 : string)
    (w1 w2 : world) (c1 c2 : bytes)
    (H1 : fs w1 !! name1 = Some (RegularFile true true c1))
    (H2 : fs w2 !! name2 = Some (RegularFile true true c2))
    (Heq : c1 = c2) :
  transform c1 = transform c2 /\
  fs (body name1 w1).2 !! name1 = Some (RegularFile true true (transform c1)) /\
  fs (body name2 w2).2 !! name2 = Some (RegularFile true true (transform c1)).
Proof.
  subst c2. rewrite !body_eq. cbn [snd fs]. unfold body_fs.
  rewrite H1, H2, !lookup_insert_eq. repeat split.
Qed.

Lemma written_bytes_two_runs :
  fs (body "entrypoint.sh"%string one_script).2 !! "entrypoint.sh"%string
    = Some (RegularFile true true [x61; x0a]) /\
  fs (body "dashboard.sh"%string other_script).2 !! "dashboard.sh"%string
    = Some (RegularFile true true [x61; x0a]).
Proof.
  exact (proj2 (written_bytes_depend_on_read_bytes
                  "entrypoint.sh"%string "dashboard.sh"%string
                  one_script other_script [x61; x0d; x0a] [x61; x0d; x0a]
                  eq_refl eq_refl eq_refl)).
Defined.

(** ** Further properties of the transformation *)

(** X1. The transform returns its input unchanged exactly when the input
    holds no CR LF pair. *)
Theorem transform_fixed_exactly_without_pair (C : bytes) :
  transform C = C <-> ~ occurs_in crlf C.
Proof.
  rewrite transform_fixed_iff. unfold count_crlf.
  rewrite <- (count_at_occurs crlf C) by discriminate.
  destruct (count_at crlf C); split; intros H; try reflexivity; try discriminate.
  - intros F. apply F. reflexivity.
  - exfalso. apply H. discriminate.
Qed.

(** X2. The output of the transform still holds a CR LF pair exactly when the
    input holds a block CR CR LF; the number of pairs of the output is the
    number of such blocks of the input. *)
Theorem transform_output_pairs (C : bytes) :
  count_crlf (transform C) = count_at [CR; CR; LF] C /\
  (occurs_in crlf (transform C) <-> occurs_in [CR; CR; LF] C).
Proof.
  split; [apply transform_new_pairs |].
  rewrite <- (count_at_occurs crlf) by discriminate.
  rewrite <- (count_at_occurs [CR; CR; LF]) by discriminate.
  fold (count_crlf (transform C)). rewrite transform_new_pairs. reflexivity.
Qed.

(** X3. The transform only deletes bytes: its output is the input with some
    bytes left out, the others in their order. *)
Theorem transform_sublist (C : bytes) : sublist (transform C) C.
Proof.
  induction C as [| t IH | b t Hb IH] using scan_ind.
  - constructor.
  - rewrite transform_crlf. apply sublist_cons. apply sublist_skip, IH.
  - rewrite transform_other by exact Hb. apply sublist_skip, IH.
Qed.

(** X4. The only bytes the transform removes are CRs, one for each CR LF
    pair: the number of occurrences of any other byte value is unchanged. *)
Theorem transform_byte_counts (b : byte) (C : bytes) :
  count_byte b (transform C) + (if bool_decide (b = CR) then count_crlf C else 0)
  = count_byte b C.
Proof.
  induction C as [| t IH | c t Hc IH] using scan_ind.
  - destruct (bool_decide (b = CR)); reflexivity.
  - rewrite transform_crlf, count_crlf_pair. cbn [count_byte].
    destruct (decide (b = CR)) as [-> | Hne].
    + rewrite bool_decide_eq_true_2 in IH by reflexivity.
      rewrite (bool_decide_eq_true_2 (CR = CR)) by reflexivity.
      rewrite (bool_decide_eq_false_2 (LF = CR)) by discriminate. lia.
    + rewrite bool_decide_eq_false_2 in IH by exact Hne.
      rewrite (bool_decide_eq_false_2 (b = CR)) by exact Hne.
      rewrite (bool_decide_eq_false_2 (CR = b)) by congruence. lia.
  - rewrite transform_other, count_crlf_other by exact Hc. cbn [count_byte].
    destruct (bool_decide (b = CR)); lia.
Qed.

(** X5. The transform of a concatenation is the concatenation of the
    transforms, unless a pair straddles the seam (the first part ends with CR
    and the second starts with LF). *)
Theorem transform_app (A B : bytes)
    (Hseam : last A <> Some CR \/ head B <> Some LF) :
  transform (A ++ B) = transform A ++ transform B.
Proof.
  revert Hseam. induction A as [| t IH | c t Hc IH] using scan_ind; intros Hseam.
  - reflexivity.
  - cbn [app]. rewrite !transform_crlf. cbn [app]. f_equal.
    destruct t as [|d t]; [reflexivity |]. apply IH.
    destruct Hseam as [Hl | Hh]; [left | right; exact Hh].
    exact Hl.
  - destruct t as [|d t].
    + cbn [app]. rewrite (transform_other c []) by exact Hc.
      rewrite transform_nil. cbn [app]. apply transform_other.
      destruct B as [|e B]; [exact Hc |]. simpl.
      destruct (decide (CR = c)) as [<- | Hne].
      * destruct Hseam as [Hl | Hh]; [exfalso; apply Hl; reflexivity |].
        rewrite (bool_decide_eq_false_2 (LF = e)); [apply andb_false_r |].
        intros <-. apply Hh. reflexivity.
      * rewrite (bool_decide_eq_false_2 (CR = c)) by exact Hne. reflexivity.
    + cbn [app]. rewrite (transform_other c (d :: t)) by exact Hc.
      rewrite (transform_other c (d :: t ++ B)) by exact Hc.
      cbn [app]. f_equal. apply IH.
      destruct Hseam as [Hl | Hh]; [left; exact Hl | right; exact Hh].
Qed.

Lemma transform_app_scenario :
  (last [x61; CR] <> Some CR \/ head [x62; LF] <> Some LF) /\
  transform ([x61; CR] ++ [x62; LF]) = transform [x61; CR] ++ transform [x62; LF].
Proof.
  assert (H : last [x61; CR] <> Some CR \/ head [x62; LF] <> Some LF)
    by (right; discriminate).
  split; [exact H |].
  exact (transform_app [x61; CR] [x62; LF] H).
Defined.

(** ** Summary of a run *)

Lemma body_fs_lookup (name n : string) (m : gmap string node) :
  body_fs name m !! n =
  if decide (n = name) then fixed_node (m !! name) else m !! n.
Proof.
  unfold body_fs, fixed_node.
  destruct (m !! name) as [[[|] [|] c|]|] eqn:E; case_decide; subst;
    rewrite ?lookup_insert_eq, ?lookup_insert_ne by congruence;
    congruence.
Qed.

Lemma fixed_node_shape (o : option node) :
  node_shape (fixed_node o) = node_shape o.
Proof. destruct o as [[[|] [|] c|]|]; reflexivity. Qed.

Lemma flat_map_ext_elem {A B : Type} (f g : A -> list B) (l : list A) :
  (forall x, x ∈ l -> f x = g x) -> flat_map f l = flat_map g l.
Proof.
  induction l as [|a l IH]; intros H; [reflexivity |]. cbn.
  rewrite (H a) by apply list_elem_of_here.
  rewrite IH; [reflexivity |]. intros x Hx. apply H, list_elem_of_further, Hx.
Qed.

(** The loop over a list without repetition: the names [done] were
    processed, the last of them with a fault if the loop raised, and the
    names [todo] were not reached. *)
Lemma for_each_summary (l : list string) :
  forall (i : nat) (w : world),
    NoDup l ->
    exists done todo : list string,
      l = done ++ todo /\
      (forall n, fs (for_each i l w).2 !! n =
                 if decide (n ∈ done) then fixed_node (fs w !! n)
                 else fs w !! n) /\
      stdout (for_each i l w).2 =
        stdout w ++ flat_map (fun name => body_lines name (fs w !! name)) done /\
      match (for_each i l w).1 with
      | Ok _ =>
          todo = [] /\
          Forall (fun name => body_result name (fs w !! name) = Ok tt) done
      | Raise e =>
          exists done' name,
            done = done' ++ [name] /\
            Forall (fun name => body_result name (fs w !! name) = Ok tt) done' /\
            body_result name (fs w !! name) = Raise e
      end.
Proof.
  induction l as [|name rest IH]; intros i w Hnd.
  - exists [], []. cbn. split; [reflexivity |]. split; [| split].
    + intros n. rewrite decide_False by apply not_elem_of_nil. reflexivity.
    + symmetry. apply app_nil_r.
    + split; [reflexivity | constructor].
  - apply NoDup_cons in Hnd as [Hname Hrest].
    rewrite for_each_cons, body_eq. cbn [fs stdout trace iter].
    destruct (body_result name (fs w !! name)) as [[]|e] eqn:Hres.
    + set (w1 := World (body_fs name (fs w))
                   (stdout w ++ body_lines name (fs w !! name))
                   (trace w ++ (pair i <$> body_effects name (fs w !! name))) i).
      destruct (IH (S i) w1 Hrest) as (done1 & todo1 & Hl & Hfs & Hout & Hr).
      assert (Hsame : forall n, n ∈ rest -> fs w1 !! n = fs w !! n).
      { intros n Hn. cbn [w1 fs]. rewrite body_fs_lookup.
        case_decide; [subst; contradiction | reflexivity]. }
      assert (Hsub : forall n, n ∈ done1 -> n ∈ rest).
      { intros n Hn. rewrite Hl. apply elem_of_app. left. exact Hn. }
      exists (name :: done1), todo1. split; [rewrite Hl; reflexivity |].
      split; [| split].
      * intros n. rewrite Hfs.
        destruct (decide (n ∈ done1)) as [Hin | Hout1].
        -- rewrite (Hsame n (Hsub n Hin)).
           rewrite decide_True by (apply list_elem_of_further, Hin). reflexivity.
        -- cbn [w1 fs]. rewrite body_fs_lookup.
           destruct (decide (n = name)) as [-> | Hne].
           ++ rewrite decide_True by apply list_elem_of_here. reflexivity.
           ++ rewrite decide_False; [reflexivity |].
              intros Hc. apply elem_of_cons in Hc as [? | ?]; contradiction.
      * rewrite Hout. cbn [w1 stdout flat_map]. rewrite <- app_assoc.
        do 2 f_equal. apply flat_map_ext_elem.
        intros x Hx. rewrite (Hsame x (Hsub x Hx)). reflexivity.
      * destruct (for_each (S i) rest w1).1 as [[]|e].
        -- destruct Hr as [-> Hall]. split; [reflexivity |].
           constructor; [exact Hres |].
           rewrite Forall_forall in *. intros x Hx.
           rewrite <- (Hsame x (Hsub x Hx)). apply Hall, Hx.
        -- destruct Hr as (done' & nm & -> & Hall & Hnm).
           exists (name :: done'), nm. split; [reflexivity |].
           assert (Hin : forall x, x ∈ done' ++ [nm] -> fs w1 !! x = fs w !! x)
             by (intros x Hx; apply Hsame, Hsub, Hx).
           split.
           ++ constructor; [exact Hres |].
              rewrite Forall_forall in *. intros x Hx.
              rewrite <- Hin by (apply elem_of_app; left; exact Hx).
              apply Hall, Hx.
           ++ rewrite <- Hin by (apply elem_of_app; right; apply list_elem_of_here).
              exact Hnm.
    + exists [name], rest. cbn [fst snd fs stdout flat_map]. split; [reflexivity |].
      split; [| split].
      * intros n. unfold body_fs.
        destruct (fs w !! name) as [[[|] [|] c|]|] eqn:E; try discriminate Hres;
          case_decide as Hd; try reflexivity;
          apply list_elem_of_singleton in Hd as ->; rewrite E; reflexivity.
      * rewrite app_nil_r. reflexivity.
      * exists [], name. repeat split; [constructor | exact Hres].
Qed.

Lemma files_nodup : NoDup files.
Proof. apply (bool_decide_unpack _). vm_compute. exact I. Qed.

(** ** Further properties of a run *)

(** X7. A run creates no file, deletes none, and changes neither the kind
    nor the permission bits of anything: only contents of regular files can
    differ afterwards. *)
Theorem run_preserves_shape (w : world) :
  (forall n, node_shape (fs (main w).2 !! n) = node_shape (fs w !! n)) /\
  dom (fs (main w).2) = dom (fs w).
Proof.
  assert (Hshape : forall n, node_shape (fs (main w).2 !! n) = node_shape (fs w !! n)).
  { intros n.
    destruct (for_each_summary files 0 w files_nodup)
      as (done & todo & _ & Hfs & _ & _).
    unfold main. rewrite Hfs. case_decide; [apply fixed_node_shape | reflexivity]. }
  split; [exact Hshape |].
  apply set_eq. intros n. rewrite !elem_of_dom.
  specialize (Hshape n).
  destruct (fs (main w).2 !! n) as [[]|], (fs w !! n) as [[]|];
    cbn in Hshape; try discriminate Hshape;
    split; intros [x Hx]; try discriminate Hx; eauto.
Qed.

(** ** One iteration, with links and faults *)

Ltac run_on :=
  repeat progress
    (cbn -[transform];
     repeat match goal with
       | H : _ !! _ = _ |- _ => rewrite H
       end;
     rewrite ?lookup_insert_eq, ?insert_insert_eq, <- ?app_assoc).

Ltac fates := unfold Posix.fate, Posix.resolve; cbn; try eassumption; try congruence.

Lemma body_iteration (name : string) (w : Posix.world) :
  Posix.iteration name w (Posix.body name w).1 (Posix.body name w).2.
Proof.
  destruct w as [nm tbl sch clk out tr it].
  unfold Posix.body, Posix.path_exists, Posix.print, Posix.with_file,
    Posix.closing, Posix.open_rb, Posix.read_all, Posix.open_wb,
    Posix.write_all, Posix.close, Posix.stat, Posix.store, Posix.syscall,
    Posix.log, Posix.raise, Posix.resolve, mbind, Posix.M_bind, mret,
    Posix.M_ret.
  cbn -[transform].
  destruct (nm !! name) as [i|] eqn:Hn; cbn -[transform];
    [destruct (tbl !! i) as [nd|] eqn:Hi; cbn -[transform] |].
  - destruct (sch clk) as [k0|] eqn:F0; run_on.
    { destruct (sch (S clk)) as [k1|] eqn:F1; run_on.
      - eapply Posix.it_skip_fault; [left |]; fates.
      - eapply Posix.it_skip; [left |]; fates. }
    destruct (sch (S clk)) as [k1|] eqn:F1; run_on.
    { eapply Posix.it_start_fault; fates. }
    destruct nd as [[|] wr c|]; run_on.
    + destruct (sch (S (S clk))) as [k2|] eqn:F2; run_on.
      { eapply Posix.it_open_rb_fault; fates. right. right. eauto 10. }
        destruct (sch (S (S (S clk)))) as [k3|] eqn:F3; run_on.
      { eapply Posix.it_read_fault; fates. }
        destruct wr; run_on.
      * destruct (sch (S (S (S (S clk))))) as [k4|] eqn:F4; run_on.
        { eapply Posix.it_open_wb_fault; fates. right. eauto. }
        destruct (sch (S (S (S (S (S clk)))))) as [k5|] eqn:F5; run_on.
        { eapply Posix.it_write_fault; fates. }
        destruct (sch (S (S (S (S (S (S clk))))))) as [k6|] eqn:F6; run_on.
        { eapply Posix.it_done_fault; fates. }
        eapply Posix.it_done; fates.
      * eapply Posix.it_open_wb_fault; fates. left. eauto.
    + eapply Posix.it_open_rb_fault; fates. right. left. eauto.
    + eapply Posix.it_open_rb_fault; fates. left. eauto.
  - destruct (sch clk) as [k0|] eqn:F0; run_on;
      destruct (sch (S clk)) as [k1|] eqn:F1; run_on;
      first [eapply Posix.it_skip_fault | eapply Posix.it_skip];
      try (right; unfold Posix.resolve; cbn; rewrite Hn; cbn; exact Hi); fates.
  - destruct (sch clk) as [k0|] eqn:F0; run_on;
      destruct (sch (S clk)) as [k1|] eqn:F1; run_on;
      first [eapply Posix.it_skip_fault | eapply Posix.it_skip];
      try (right; unfold Posix.resolve; cbn; rewrite Hn; reflexivity); fates.
Qed.

Lemma posix_for_each_cons (i : nat) (name : string) (rest : list string)
    (w : Posix.world) :
  Posix.for_each i (name :: rest) w =
  match Posix.body name (Posix.at_iter i w) with
  | (Posix.Ok _, w') => Posix.for_each (S i) rest w'
  | (Posix.Raise e, w') => (Posix.Raise e, w')
  end.
Proof. reflexivity. Qed.

Lemma complete_concerns (name : string) (b : list Posix.effect) :
  Posix.complete name b -> Forall (Posix.concerns name) b.
Proof.
  intros [-> | [c ->]]; unfold Posix.skip_block, Posix.full_block;
    repeat (constructor; [first [reflexivity | cbn; set_solver] |]);
    constructor.
Qed.

(** What every iteration keeps. *)
Lemma iteration_frame (name : string) (w w' : Posix.world)
    (r : Posix.result unit) :
  Posix.iteration name w r w' ->
  Posix.names w' = Posix.names w /\
  Posix.schedule w' = Posix.schedule w /\
  Posix.iter w' = Posix.iter w /\
  Posix.clock w <= Posix.clock w'.
Proof. destruct 1; cbn; repeat split; lia. Qed.

Lemma iteration_trace (name : string) (w w' : Posix.world)
    (r : Posix.result unit) :
  Posix.iteration name w r w' ->
  exists b,
    Posix.trace w' = Posix.trace w ++ (pair (Posix.iter w) <$> b) /\
    Forall (Posix.concerns name) b /\
    (r = Posix.Ok tt -> Posix.complete name b).
Proof.
  assert (Hc : forall b, Posix.complete name b ->
            Forall (Posix.concerns name) b /\
            (Posix.Ok tt = Posix.Ok tt -> Posix.complete name b)).
  { intros b Hb. split; [apply complete_concerns, Hb | intros _; exact Hb]. }
  destruct 1; (eexists; split; [reflexivity |]).
  1: apply Hc; left; reflexivity.
  8: apply Hc; right; eexists; reflexivity.
  all: split; [| intros H'; discriminate H'].
  all: repeat apply List.Forall_cons; try apply List.Forall_nil;
    unfold Posix.concerns; try reflexivity;
    first [ apply list_elem_of_here
          | apply list_elem_of_further, list_elem_of_here
          | do 2 apply list_elem_of_further; apply list_elem_of_here ].
Qed.

Lemma iteration_ok (name : string) (w w' : Posix.world) :
  Posix.iteration name w (Posix.Ok tt) w' ->
  ((Posix.fate w 0 <> None \/ Posix.resolve w name = None) /\
   w' = Posix.after w 2 (Posix.inodes w)
          (Posix.stdout w ++ [msg_skipping name]) (Posix.skip_block name)) \/
  (exists ino c,
      Posix.fate w 0 = None /\
      Posix.names w !! name = Some ino /\
      Posix.inodes w !! ino = Some (RegularFile true true c) /\
      w' = Posix.after w 7
             (<[ino := RegularFile true true (transform c)]> (Posix.inodes w))
             (Posix.stdout w ++ [msg_fixing name; msg_fixed name])
             (Posix.full_block name c)).
Proof. inversion 1; subst; [left | right]; eauto 10. Qed.

Lemma iteration_damage (name : string) (w w' : Posix.world) (e : Posix.exn) :
  Posix.iteration name w (Posix.Raise e) w' ->
  Posix.inodes w' = Posix.inodes w \/
  exists ino c k,
    Posix.names w !! name = Some ino /\
    Posix.inodes w !! ino = Some (RegularFile true true c) /\
    Posix.inodes w' =
      <[ino := RegularFile true true (take k (transform c))]> (Posix.inodes w).
Proof.
  inversion 1; subst; cbn [Posix.after Posix.inodes];
    first
      [ left; reflexivity
      | right; eexists _, _, _; split; [eassumption |]; split; [eassumption |];
        reflexivity
      | match goal with
        | Hi : Posix.inodes w !! ?i = Some (RegularFile true true ?c) |- _ =>
            right; exists i, c, (length (transform c));
            rewrite firstn_all; repeat split; assumption
        end ].
Qed.

Lemma iteration_cause (name : string) (w w' : Posix.world) (e : Posix.exn) :
  Posix.iteration name w (Posix.Raise e) w' ->
  (exists j k, Posix.fate w j = Some k) \/
  ~ processable (Posix.resolve w name).
Proof.
  inversion 1; subst;
    repeat match goal with
      | H : _ \/ _ |- _ => destruct H
      | H : exists _, _ |- _ => destruct H
      | H : _ /\ _ |- _ => destruct H
      end; subst;
    first
      [ left; eexists _, _; eassumption
      | right;
        match goal with
        | Hn : Posix.names w !! name = Some ?i,
          Hi : Posix.inodes w !! ?i = Some _ |- _ =>
            unfold Posix.resolve; rewrite Hn; cbn; rewrite Hi;
            intros [Hx | [c' Hx]]; discriminate Hx
        end ].
Qed.

(** ** The log of a run, block by block *)

Lemma for_each_blocks (l : list string) :
  forall (i : nat) (w : Posix.world),
    exists tr,
      Posix.trace (Posix.for_each i l w).2 = Posix.trace w ++ tr /\
      Posix.run_blocks i l (Posix.for_each i l w).1 tr.
Proof.
  induction l as [|name rest IH]; intros i w.
  - exists []. split; [symmetry; apply app_nil_r | constructor].
  - rewrite posix_for_each_cons.
    pose proof (body_iteration name (Posix.at_iter i w)) as Hit.
    destruct (Posix.body name (Posix.at_iter i w)) as [[[]|e] w1];
      cbn [fst snd] in Hit |- *.
    + destruct (iteration_trace _ _ _ _ Hit) as (b & Hb & _ & Hc).
      destruct (IH (S i) w1) as (tr & Htr & Hrun).
      exists ((pair i <$> b) ++ tr). split.
      * rewrite Htr, Hb. cbn. symmetry. apply app_assoc.
      * constructor; [apply Hc; reflexivity | exact Hrun].
    + destruct (iteration_trace _ _ _ _ Hit) as (b & Hb & Hcon & _).
      exists (pair i <$> b). split; [exact Hb |]. constructor. exact Hcon.
Qed.

Lemma run_blocks_tags (i : nat) (l : list string) (r : Posix.result unit)
    (tr : list (nat * Posix.effect)) :
  Posix.run_blocks i l r tr ->
  Forall (fun x => i <= x.1 /\
            exists name, l !! (x.1 - i) = Some name /\
                         Posix.concerns name x.2) tr.
Proof.
  assert (Hblock : forall i name rest b,
            Forall (Posix.concerns name) b ->
            Forall (fun x => i <= x.1 /\
                      exists nm, (name :: rest) !! (x.1 - i) = Some nm /\
                                 Posix.concerns nm x.2)
                   (pair i <$> b)).
  { intros j name rest b Hb. apply Forall_fmap.
    eapply Forall_impl; [exact Hb |]. intros e He. cbn.
    split; [lia |]. exists name. rewrite Nat.sub_diag. split; [reflexivity | exact He]. }
  induction 1 as [| i name rest e b Hb | i name rest r b tr Hb _ IH].
  - constructor.
  - apply Hblock, Hb.
  - apply Forall_app. split; [apply Hblock, complete_concerns, Hb |].
    eapply Forall_impl; [exact IH |].
    intros [k e] (Hk & nm & Hnm & Hc). cbn in *. split; [lia |].
    exists nm. split; [| exact Hc].
    replace (k - i) with (S (k - S i)) by lia. exact Hnm.
Qed.

Lemma block_lookup (i : nat) (b : list Posix.effect) (p k : nat)
    (e : Posix.effect) :
  (pair i <$> b) !! p = Some (k, e) -> k = i.
Proof.
  rewrite list_lookup_fmap. destruct (b !! p); [| discriminate].
  cbn. intros H. injection H as <- _. reflexivity.
Qed.

Lemma run_blocks_order (i : nat) (l : list string) (r : Posix.result unit)
    (tr : list (nat * Posix.effect)) :
  Posix.run_blocks i l r tr ->
  forall p q a ea b eb,
    tr !! p = Some (a, ea) -> tr !! q = Some (b, eb) -> a < b -> p < q.
Proof.
  induction 1 as [| i name rest e blk Hb | i name rest r blk tr Hb Hrun IH];
    intros p q a ea b eb Hp Hq Hab.
  - rewrite lookup_nil in Hp. discriminate.
  - apply block_lookup in Hp, Hq. lia.
  - pose proof (run_blocks_tags _ _ _ _ Hrun) as Htags.
    rewrite Forall_lookup in Htags.
    apply lookup_app_Some in Hp, Hq.
    destruct Hp as [Hp | [Hlp Hp]], Hq as [Hq | [Hlq Hq]].
    + apply block_lookup in Hp, Hq. lia.
    + apply lookup_lt_Some in Hp. lia.
    + apply block_lookup in Hq.
      destruct (Htags _ _ Hp) as [Hle _]. cbn in Hle. lia.
    + pose proof (IH _ _ _ _ _ _ Hp Hq Hab). lia.
Qed.

Lemma effects_at_app (k : nat) (t1 t2 : list (nat * Posix.effect)) :
  Posix.effects_at k (t1 ++ t2) = Posix.effects_at k t1 ++ Posix.effects_at k t2.
Proof. unfold Posix.effects_at. rewrite filter_app, fmap_app. reflexivity. Qed.

Lemma effects_at_block (k i : nat) (b : list Posix.effect) :
  Posix.effects_at k (pair i <$> b) = if decide (i = k) then b else [].
Proof.
  unfold Posix.effects_at. induction b as [|e b IH].
  - case_decide; reflexivity.
  - rewrite fmap_cons. case_decide as Hik.
    + rewrite filter_cons_True by exact Hik. rewrite fmap_cons, IH.
      reflexivity.
    + rewrite filter_cons_False by exact Hik. exact IH.
Qed.

Lemma effects_at_above (k : nat) (tr : list (nat * Posix.effect)) :
  Forall (fun x => k < x.1) tr -> Posix.effects_at k tr = [].
Proof.
  unfold Posix.effects_at. induction 1 as [|x tr Hx _ IH]; [reflexivity |].
  rewrite filter_cons_False by lia. exact IH.
Qed.

Lemma run_blocks_above (i : nat) (l : list string) (r : Posix.result unit)
    (tr : list (nat * Posix.effect)) (k : nat) :
  Posix.run_blocks i l r tr -> k < i -> Posix.effects_at k tr = [].
Proof.
  intros Hrun Hk. apply effects_at_above.
  eapply Forall_impl; [apply (run_blocks_tags _ _ _ _ Hrun) |].
  intros x [Hx _]. lia.
Qed.

(** The effects of an entry that finished are one complete block. *)
Lemma run_blocks_finished (i : nat) (l : list string) (r : Posix.result unit)
    (tr : list (nat * Posix.effect)) :
  Posix.run_blocks i l r tr ->
  forall k name,
    i <= k -> l !! (k - i) = Some name ->
    r = Posix.Ok tt \/ (exists p a e, tr !! p = Some (a, e) /\ k < a) ->
    Posix.complete name (Posix.effects_at k tr).
Proof.
  induction 1 as [| i name rest e blk Hb | i name rest r blk tr Hb Hrun IH];
    intros k nm Hik Hnm Hlater.
  - rewrite lookup_nil in Hnm. discriminate.
  - destruct Hlater as [Hr | (p & a & e' & Hp & Hka)]; [discriminate Hr |].
    apply block_lookup in Hp. lia.
  - rewrite effects_at_app, effects_at_block.
    destruct (decide (i = k)) as [<- | Hne].
    + rewrite Nat.sub_diag in Hnm. injection Hnm as <-.
      rewrite (run_blocks_above _ _ _ _ i Hrun) by lia.
      rewrite app_nil_r. exact Hb.
    + cbn. apply IH; [lia | |].
      * replace (k - i) with (S (k - S i)) in Hnm by lia. exact Hnm.
      * destruct Hlater as [Hr | (p & a & e' & Hp & Hka)]; [left; exact Hr |].
        right. apply lookup_app_Some in Hp as [Hp | [_ Hp]].
        -- apply block_lookup in Hp. lia.
        -- eauto.
Qed.

(** ** What a run can change *)

Lemma iteration_inodes (name : string) (w w' : Posix.world)
    (r : Posix.result unit) :
  Posix.iteration name w r w' ->
  forall j, Posix.names w !! name <> Some j ->
            Posix.inodes w' !! j = Posix.inodes w !! j.
Proof.
  destruct 1; cbn; intros j Hj; try reflexivity;
    apply lookup_insert_ne; congruence.
Qed.

Lemma for_each_frame (l : list string) :
  forall (i : nat) (w : Posix.world),
    Posix.names (Posix.for_each i l w).2 = Posix.names w /\
    forall j, (forall name, name ∈ l -> Posix.names w !! name <> Some j) ->
              Posix.inodes (Posix.for_each i l w).2 !! j = Posix.inodes w !! j.
Proof.
  induction l as [|name rest IH]; intros i w.
  - split; [reflexivity |]. intros j _. reflexivity.
  - rewrite posix_for_each_cons.
    pose proof (body_iteration name (Posix.at_iter i w)) as Hit.
    destruct (Posix.body name (Posix.at_iter i w)) as [[[]|e] w1];
      cbn [fst snd] in Hit |- *.
    + destruct (iteration_frame _ _ _ _ Hit) as (Hn & _).
      destruct (IH (S i) w1) as [Hn' Hi']. cbn in Hn.
      split; [congruence |]. intros j Hj.
      rewrite Hi'.
      * apply (iteration_inodes _ _ _ _ Hit). apply Hj, list_elem_of_here.
      * intros nm Hnm. rewrite Hn. apply Hj, list_elem_of_further, Hnm.
    + destruct (iteration_frame _ _ _ _ Hit) as (Hn & _).
      split; [exact Hn |]. intros j Hj.
      apply (iteration_inodes _ _ _ _ Hit). apply Hj, list_elem_of_here.
Qed.

(** ** Runs without fault *)

Lemma processable_fixed (o : option node) :
  processable o -> processable (fixed_node o).
Proof.
  intros [-> | [c ->]]; [left; reflexivity | right; eexists; reflexivity].
Qed.

Lemma is_Some_fixed (o : option node) : is_Some (fixed_node o) <-> is_Some o.
Proof. destruct o as [[[|] [|] c|]|]; cbn; split; intros [x Hx]; eauto; discriminate. Qed.

Lemma iteration_clean (name : string) (w w' : Posix.world)
    (r : Posix.result unit) :
  Posix.iteration name w r w' ->
  (forall j, Posix.fate w j = None) ->
  processable (Posix.resolve w name) ->
  r = Posix.Ok tt /\
  (forall j, Posix.inodes w' !! j =
             if decide (Posix.names w !! name = Some j)
             then fixed_node (Posix.inodes w !! j)
             else Posix.inodes w !! j) /\
  Posix.stdout w' = Posix.stdout w ++ Posix.lines_for w name.
Proof.
  intros Hit Hq Hp. destruct r as [[]|e].
  - split; [reflexivity |].
    apply iteration_ok in Hit as [[Hskip ->] | (ino & c & F0 & Hn & Hi & ->)];
      cbn [Posix.after Posix.inodes Posix.stdout].
    + assert (Hres : Posix.resolve w name = None).
      { destruct Hskip as [Hf | Hres]; [| exact Hres]. destruct Hf. apply Hq. }
      split.
      * intros j. case_decide as Hj; [| reflexivity].
        unfold Posix.resolve in Hres. rewrite Hj in Hres. cbn in Hres.
        rewrite Hres. reflexivity.
      * unfold Posix.lines_for. rewrite Hres.
        rewrite bool_decide_eq_false_2; [reflexivity |].
        intros [x Hx]. discriminate Hx.
    + split.
      * intros j. case_decide as Hj.
        -- rewrite Hn in Hj. injection Hj as <-.
           rewrite lookup_insert_eq, Hi. reflexivity.
        -- apply lookup_insert_ne. congruence.
      * unfold Posix.lines_for, Posix.resolve. rewrite Hn. cbn. rewrite Hi.
        rewrite bool_decide_eq_true_2 by eauto. reflexivity.
  - exfalso. destruct (iteration_cause _ _ _ _ Hit) as [(j & k & Hf) | Hnp].
    + rewrite Hq in Hf. discriminate Hf.
    + exact (Hnp Hp).
Qed.

Lemma links_cons (w : Posix.world) (name : string) (rest : list string)
    (j : nat) :
  Posix.links w (name :: rest) j =
  if decide (Posix.names w !! name = Some j)
  then S (Posix.links w rest j) else Posix.links w rest j.
Proof.
  unfold Posix.links. case_decide as Hj.
  - rewrite filter_cons_True by exact Hj. reflexivity.
  - rewrite filter_cons_False by exact Hj. reflexivity.
Qed.

Lemma for_each_clean (l : list string) :
  forall (i : nat) (w : Posix.world),
    (forall n, Posix.clock w <= n -> Posix.schedule w n = None) ->
    (forall name, name ∈ l -> processable (Posix.resolve w name)) ->
    (Posix.for_each i l w).1 = Posix.Ok tt /\
    Posix.names (Posix.for_each i l w).2 = Posix.names w /\
    (forall j, Posix.inodes (Posix.for_each i l w).2 !! j =
               Nat.iter (Posix.links w l j) fixed_node (Posix.inodes w !! j)) /\
    Posix.stdout (Posix.for_each i l w).2 =
      Posix.stdout w ++ flat_map (Posix.lines_for w) l.
Proof.
  induction l as [|name rest IH]; intros i w Hq Hp.
  - cbn. repeat split. symmetry. apply app_nil_r.
  - rewrite posix_for_each_cons.
    pose proof (body_iteration name (Posix.at_iter i w)) as Hit.
    destruct (Posix.body name (Posix.at_iter i w)) as [r w1];
      cbn [fst snd] in Hit.
    destruct (iteration_frame _ _ _ _ Hit) as (Hn & Hs & _ & Hc). cbn in Hn, Hs, Hc.
    destruct (iteration_clean _ _ _ _ Hit) as (-> & Hi & Hout).
    { intros j. unfold Posix.fate. cbn. apply Hq. lia. }
    { apply Hp, list_elem_of_here. }
    cbn in Hi, Hout.
    assert (Hres : forall n, Posix.resolve w1 n = fixed_node (Posix.resolve w n) \/
                             Posix.resolve w1 n = Posix.resolve w n).
    { intros n. unfold Posix.resolve. rewrite Hn.
      destruct (Posix.names w !! n) as [j|]; cbn; [| right; reflexivity].
      rewrite Hi. case_decide; [left | right]; reflexivity. }
    assert (Hlines : forall n, Posix.lines_for w1 n = Posix.lines_for w n).
    { intros n. unfold Posix.lines_for.
      rewrite (bool_decide_ext (is_Some (Posix.resolve w1 n))
                 (is_Some (Posix.resolve w n))); [reflexivity |].
      destruct (Hres n) as [-> | ->]; [apply is_Some_fixed | reflexivity]. }
    destruct (IH (S i) w1) as (Hr & Hn' & Hi' & Hout').
    { intros n Hle. rewrite Hs. apply Hq. lia. }
    { intros n Hin. destruct (Hres n) as [-> | ->].
      - apply processable_fixed, Hp, list_elem_of_further, Hin.
      - apply Hp, list_elem_of_further, Hin. }
    split; [exact Hr |]. split; [congruence |]. split.
    + intros j. rewrite Hi', Hi, links_cons.
      replace (Posix.links w1 rest j) with (Posix.links w rest j)
        by (unfold Posix.links; rewrite Hn; reflexivity).
      case_decide; [| reflexivity].
      symmetry. apply Nat.iter_succ_r.
    + rewrite Hout', Hout. cbn [flat_map]. rewrite <- app_assoc.
      do 2 f_equal. apply flat_map_ext. exact Hlines.
Qed.

(** ** Runs that stop on an exception *)

Lemma for_each_raise (l : list string) :
  forall (i : nat) (w : Posix.world) (e : Posix.exn),
    (Posix.for_each i l w).1 = Posix.Raise e ->
    exists (done : list string) (name : string) (todo : list string)
           (w1 : Posix.world),
      l = done ++ name :: todo /\
      Posix.for_each i done w = (Posix.Ok tt, w1) /\
      Posix.for_each i l w =
        Posix.body name (Posix.at_iter (i + length done) w1) /\
      (Posix.body name (Posix.at_iter (i + length done) w1)).1 = Posix.Raise e.
Proof.
  induction l as [|name rest IH]; intros i w e He; [discriminate He |].
  rewrite posix_for_each_cons in He |- *.
  destruct (Posix.body name (Posix.at_iter i w)) as [[[]|e'] w1] eqn:Hb.
  - destruct (IH (S i) w1 e He) as (done & nm & todo & w2 & -> & Hd & Hl & Hr).
    exists (name :: done), nm, todo, w2.
    rewrite posix_for_each_cons, Hb. cbn [length].
    rewrite Nat.add_succ_r. repeat split; assumption.
  - cbn in He. injection He as ->.
    exists [], name, rest, w. cbn [length app]. rewrite Nat.add_0_r, Hb.
    repeat split.
Qed.

(** ** The contract of the loop, with links and faults *)

(** C7. Sequential processing in list order.  The effects of a run are
    stamped with the position of the entry being processed.  An effect of an
    earlier position comes before every effect of a later position, and each
    effect concerns the file at the position of its stamp.  Whenever an
    effect of some position is in the log, the effects of every earlier
    position are one complete block: the file was skipped, or it was read in
    whole and then written in whole and closed; after a run that ends
    normally this holds for every position.  An iteration that ends normally
    leaves the log extended by such a block, the content read being all the
    content of the file and the file holding all the transformed content
    afterwards; and the loop starts the next entry from the state that a
    normally ended iteration left, and stops otherwise. *)
Theorem each_file_done_before_next (w : Posix.world) :
  exists tr : list (nat * Posix.effect),
    Posix.trace (Posix.main w).2 = Posix.trace w ++ tr /\
    (forall p q i j ei ej,
        tr !! p = Some (i, ei) -> tr !! q = Some (j, ej) -> i < j -> p < q) /\
    (forall p i e,
        tr !! p = Some (i, e) ->
        exists name, files !! i = Some name /\ Posix.concerns name e) /\
    (forall p i e k name,
        tr !! p = Some (i, e) -> k < i -> files !! k = Some name ->
        Posix.complete name (Posix.effects_at k tr)) /\
    ((Posix.main w).1 = Posix.Ok tt ->
     forall k name,
       files !! k = Some name -> Posix.complete name (Posix.effects_at k tr)) /\
    (forall name v,
        (Posix.body name v).1 = Posix.Ok tt ->
        (Posix.trace (Posix.body name v).2 =
           Posix.trace v ++ (pair (Posix.iter v) <$> Posix.skip_block name) /\
         Posix.inodes (Posix.body name v).2 = Posix.inodes v) \/
        (exists ino c,
            Posix.names v !! name = Some ino /\
            Posix.inodes v !! ino = Some (RegularFile true true c) /\
            Posix.trace (Posix.body name v).2 =
              Posix.trace v ++ (pair (Posix.iter v) <$> Posix.full_block name c) /\
            Posix.inodes (Posix.body name v).2 =
              <[ino := RegularFile true true (transform c)]> (Posix.inodes v))) /\
    (forall i name rest v,
        Posix.for_each i (name :: rest) v =
        match Posix.body name (Posix.at_iter i v) with
        | (Posix.Ok _, v') => Posix.for_each (S i) rest v'
        | (Posix.Raise e, v') => (Posix.Raise e, v')
        end).
Proof.
  destruct (for_each_blocks files 0 w) as (tr & Htr & Hrun).
  exists tr. split; [exact Htr |].
  split; [| split; [| split; [| split; [| split]]]].
  - intros p q i j ei ej. exact (run_blocks_order _ _ _ _ Hrun p q i ei j ej).
  - intros p i e Hp.
    pose proof (run_blocks_tags _ _ _ _ Hrun) as Htags.
    rewrite Forall_lookup in Htags.
    destruct (Htags _ _ Hp) as (_ & name & Hname & Hc). cbn in Hname, Hc.
    exists name. rewrite Nat.sub_0_r in Hname. split; assumption.
  - intros p i e k name Hp Hki Hname.
    apply (run_blocks_finished _ _ _ _ Hrun); [lia | | right; eauto].
    rewrite Nat.sub_0_r. exact Hname.
  - intros Hok k name Hname.
    apply (run_blocks_finished _ _ _ _ Hrun); [lia | | left; exact Hok].
    rewrite Nat.sub_0_r. exact Hname.
  - intros name v Hok.
    pose proof (body_iteration name v) as Hit. rewrite Hok in Hit.
    apply iteration_ok in Hit as [[_ ->] | (ino & c & _ & Hn & Hi & ->)].
    + left. split; reflexivity.
    + right. exists ino, c. repeat split; assumption.
  - intros i name rest v. reflexivity.
Qed.

(** ** Further properties of a run, with links and faults *)

(** X6. A run changes no directory entry, and it changes no file other than
    those the listed names resolve to: an inode that no listed name resolves
    to is the same after the run, whether the run ends normally or on an
    exception. *)
Theorem run_changes_only_listed_inodes (w : Posix.world) (j : nat)
    (H : forall name, name ∈ files -> Posix.names w !! name <> Some j) :
  Posix.names (Posix.main w).2 = Posix.names w /\
  Posix.inodes (Posix.main w).2 !! j = Posix.inodes w !! j.
Proof.
  destruct (for_each_frame files 0 w) as [Hn Hi].
  split; [exact Hn | apply Hi, H].
Qed.

Lemma run_leaves_notes_alone :
  (forall name, name ∈ files -> Posix.names linked_dir !! name <> Some 3) /\
  Posix.names (Posix.main linked_dir).2 = Posix.names linked_dir /\
  Posix.inodes (Posix.main linked_dir).2 !! 3 = Posix.inodes linked_dir !! 3.
Proof.
  assert (H : forall name, name ∈ files ->
                           Posix.names linked_dir !! name <> Some 3).
  { intros name Hn. unfold files in Hn.
    repeat (apply elem_of_cons in Hn as [-> | Hn]);
      [vm_compute; discriminate ..| apply elem_of_nil in Hn; contradiction]. }
  split; [exact H |].
  exact (run_changes_only_listed_inodes linked_dir 3 H).
Defined.

(** X8. When no system call fails and every listed name resolves to nothing
    or to a regular file that may be read and written, the run ends
    normally; no directory entry changes; every file holds its former
    content transformed once for each listed name that resolves to it; and
    the console shows, in list order, the skip notice of each name that
    resolves to nothing and the two lines of each other name. *)
Theorem run_succeeds_without_fault (w : Posix.world)
    (Hq : forall n, Posix.clock w <= n -> Posix.schedule w n = None)
    (Hp : forall name, name ∈ files -> processable (Posix.resolve w name)) :
  (Posix.main w).1 = Posix.Ok tt /\
  Posix.names (Posix.main w).2 = Posix.names w /\
  (forall j, Posix.inodes (Posix.main w).2 !! j =
             Nat.iter (Posix.links w files j) fixed_node (Posix.inodes w !! j)) /\
  Posix.stdout (Posix.main w).2 =
    Posix.stdout w ++ flat_map (Posix.lines_for w) files.
Proof. exact (for_each_clean files 0 w Hq Hp). Qed.

Lemma run_succeeds_linked_dir :
  (forall n, Posix.clock linked_dir <= n -> Posix.schedule linked_dir n = None) /\
  (forall name, name ∈ files -> processable (Posix.resolve linked_dir name)) /\
  (Posix.main linked_dir).1 = Posix.Ok tt /\
  Posix.names (Posix.main linked_dir).2 = Posix.names linked_dir /\
  (forall j, Posix.inodes (Posix.main linked_dir).2 !! j =
             Nat.iter (Posix.links linked_dir files j) fixed_node
               (Posix.inodes linked_dir !! j)) /\
  Posix.stdout (Posix.main linked_dir).2 =
    Posix.stdout linked_dir ++ flat_map (Posix.lines_for linked_dir) files.
Proof.
  assert (Hq : forall n, Posix.clock linked_dir <= n ->
                         Posix.schedule linked_dir n = None)
    by (intros n _; reflexivity).
  assert (Hp : forall name, name ∈ files ->
                            processable (Posix.resolve linked_dir name)).
  { intros name Hn. unfold files in Hn.
    repeat (apply elem_of_cons in Hn as [-> | Hn]);
      [ right; exists [x61; x0d; x0d; x0a]; reflexivity
      | right; exists [x62; x0d; x0a]; reflexivity
      | left; reflexivity
      | right; exists [x61; x0d; x0d; x0a]; reflexivity
      | apply elem_of_nil in Hn; contradiction ]. }
  split; [exact Hq |]. split; [exact Hp |].
  exact (run_succeeds_without_fault linked_dir Hq Hp).
Defined.

(** X9. When a run ends with an exception, the entries before the failing
    one were processed to their end and no entry after it was started: the
    run ends in the state in which the failing iteration stopped.  That
    iteration changed no directory entry and at most one file, the one its
    name resolves to, which then holds a prefix of its transformed content
    (nothing, a part, or all of it); every other file is as the earlier
    entries left it. *)
Theorem run_fault_damage (w : Posix.world) (e : Posix.exn)
    (H : (Posix.main w).1 = Posix.Raise e) :
  exists (done : list string) (name : string) (todo : list string)
         (w1 : Posix.world),
    files = done ++ name :: todo /\
    Posix.for_each 0 done w = (Posix.Ok tt, w1) /\
    Posix.main w = Posix.body name (Posix.at_iter (length done) w1) /\
    Posix.names (Posix.main w).2 = Posix.names w /\
    (Posix.inodes (Posix.main w).2 = Posix.inodes w1 \/
     exists ino c k,
       Posix.names w !! name = Some ino /\
       Posix.inodes w1 !! ino = Some (RegularFile true true c) /\
       Posix.inodes (Posix.main w).2 =
         <[ino := RegularFile true true (take k (transform c))]>
           (Posix.inodes w1)).
Proof.
  destruct (for_each_raise files 0 w e H)
    as (done & name & todo & w1 & Hl & Hd & Hm & Hr).
  exists done, name, todo, w1. cbn [Nat.add] in Hm, Hr.
  split; [exact Hl |]. split; [exact Hd |]. split; [exact Hm |].
  split; [apply for_each_frame |].
  pose proof (body_iteration name (Posix.at_iter (length done) w1)) as Hit.
  rewrite Hr in Hit. unfold Posix.main at 1 2. rewrite Hm.
  destruct (iteration_damage _ _ _ _ Hit) as [Hsame | (ino & c & k & Hn & Hi & Hins)].
  - left. exact Hsame.
  - right. exists ino, c, k. cbn in Hn, Hi, Hins.
    assert (Hnames : Posix.names w1 = Posix.names w).
    { pose proof (proj1 (for_each_frame done 0 w)) as Hf.
      rewrite Hd in Hf. exact Hf. }
    rewrite <- Hnames. repeat split; assumption.
Qed.

Lemma run_fault_damage_disk_full :
  (Posix.main disk_full).1 = Posix.Raise (Posix.OSError "entrypoint.sh") /\
  exists (done : list string) (name : string) (todo : list string)
         (w1 : Posix.world),
    files = done ++ name :: todo /\
    Posix.for_each 0 done disk_full = (Posix.Ok tt, w1) /\
    Posix.main disk_full = Posix.body name (Posix.at_iter (length done) w1) /\
    Posix.names (Posix.main disk_full).2 = Posix.names disk_full /\
    (Posix.inodes (Posix.main disk_full).2 = Posix.inodes w1 \/
     exists ino c k,
       Posix.names disk_full !! name = Some ino /\
       Posix.inodes w1 !! ino = Some (RegularFile true true c) /\
       Posix.inodes (Posix.main disk_full).2 =
         <[ino := RegularFile true true (take k (transform c))]>
           (Posix.inodes w1)).
Proof.
  assert (H : (Posix.main disk_full).1
              = Posix.Raise (Posix.OSError "entrypoint.sh"))
    by (vm_compute; reflexivity).
  split; [exact H |].
  exact (run_fault_damage disk_full _ H).
Defined.

(** ** The two models agree without links and faults *)

Lemma fs_of_lookup (v : Posix.world) (name : string) :
  fs_of v !! name = Posix.resolve v name.
Proof. unfold fs_of, Posix.resolve. apply lookup_omap. Qed.

Lemma fs_of_insert (v : Posix.world) (name : string) (ino : nat) (n : node)
    (tbl : gmap nat node) :
  unlinked v ->
  Posix.names v !! name = Some ino ->
  tbl = <[ino := n]> (Posix.inodes v) ->
  omap (fun i => tbl !! i) (Posix.names v) = <[name := n]> (fs_of v).
Proof.
  intros Hun Hn ->. apply map_eq. intros x.
  rewrite lookup_omap. destruct (decide (x = name)) as [-> | Hne].
  - rewrite Hn, lookup_insert_eq. cbn. apply lookup_insert_eq.
  - rewrite lookup_insert_ne by congruence. rewrite fs_of_lookup.
    unfold Posix.resolve. destruct (Posix.names v !! x) as [i|] eqn:Hx; [| reflexivity].
    cbn. apply lookup_insert_ne. intros <-. apply Hne. exact (Hun _ _ _ Hx Hn).
Qed.

(** In a working directory without links, an iteration in which no system
    call fails does to the directory and the console what the iteration of
    the first model does, and ends normally in the same cases. *)
Lemma posix_body_simulates (name : string) (v : Posix.world) :
  (forall j, Posix.fate v j = None) ->
  unlinked v ->
  fs_of (Posix.body name v).2 = body_fs name (fs_of v) /\
  Posix.stdout (Posix.body name v).2 =
    Posix.stdout v ++ body_lines name (fs_of v !! name) /\
  ((Posix.body name v).1 = Posix.Ok tt <->
   body_result name (fs_of v !! name) = Ok tt).
Proof.
  intros Hq Hun. pose proof (body_iteration name v) as Hit.
  rewrite fs_of_lookup. unfold body_fs. rewrite fs_of_lookup.
  destruct (Posix.body name v) as [r v']. cbn [fst snd] in *.
  inversion Hit; subst;
    try match goal with
      | H : Posix.fate v _ = Some _ |- _ => rewrite Hq in H; discriminate H
      end.
  - assert (Hres : Posix.resolve v name = None).
    { match goal with H : _ \/ _ |- _ => destruct H as [Hf | Hres] end;
        [destruct Hf; apply Hq | exact Hres]. }
    rewrite Hres. cbn. repeat split.
  - assert (Hres : Posix.resolve v name = Some nd).
    { unfold Posix.resolve. rewrite H. cbn. assumption. }
    rewrite Hres.
    match goal with
    | H : _ \/ _ \/ _ |- _ =>
        destruct H as [[-> ->] | [(wr & c & -> & ->) | (wr & c & k & _ & Hf & _)]]
    end.
    + cbn. repeat split; intros Hx; discriminate Hx.
    + cbn. repeat split; intros Hx; discriminate Hx.
    + rewrite Hq in Hf. discriminate Hf.
  - assert (Hres : Posix.resolve v name = Some (RegularFile true wr c)).
    { unfold Posix.resolve. rewrite H. cbn. assumption. }
    rewrite Hres.
    match goal with
    | H : _ \/ _ |- _ => destruct H as [[-> ->] | (k & _ & Hf & _)]
    end.
    + cbn. repeat split; intros Hx; discriminate Hx.
    + rewrite Hq in Hf. discriminate Hf.
  - assert (Hres : Posix.resolve v name = Some (RegularFile true true c)).
    { unfold Posix.resolve. rewrite H. cbn. assumption. }
    rewrite Hres. cbn. split; [| repeat split].
    unfold fs_of at 1. cbn. eapply fs_of_insert; eauto.
Qed.

(** The same for a whole run: without links and without failing system
    calls, the two models end normally in the same cases and leave the same
    working directory and the same console. *)
Lemma posix_run_simulates (l : list string) :
  forall (i : nat) (v : Posix.world) (w : world),
    (forall n, Posix.clock v <= n -> Posix.schedule v n = None) ->
    unlinked v ->
    fs w = fs_of v ->
    stdout w = Posix.stdout v ->
    fs (for_each i l w).2 = fs_of (Posix.for_each i l v).2 /\
    stdout (for_each i l w).2 = Posix.stdout (Posix.for_each i l v).2 /\
    ((for_each i l w).1 = Ok tt <->
     (Posix.for_each i l v).1 = Posix.Ok tt).
Proof.
  induction l as [|name rest IH]; intros i v w Hq Hun Hfs Hout.
  - cbn. repeat split; assumption.
  - rewrite for_each_cons, body_eq, posix_for_each_cons.
    cbn [fs stdout trace iter]. rewrite Hfs, Hout.
    destruct (posix_body_simulates name (Posix.at_iter i v))
      as (Hfs1 & Hout1 & Hok).
    { intros j. unfold Posix.fate. cbn. apply Hq. lia. }
    { exact Hun. }
    pose proof (body_iteration name (Posix.at_iter i v)) as Hit.
    destruct (iteration_frame _ _ _ _ Hit) as (Hn & Hs & _ & Hc).
    change (fs_of (Posix.at_iter i v)) with (fs_of v) in *.
    cbn in Hn, Hs, Hc, Hout1.
    destruct (Posix.body name (Posix.at_iter i v)) as [[[]|e] v1];
      cbn [fst snd] in *.
    + rewrite (proj1 Hok) by reflexivity.
      apply IH.
      * intros n Hle. rewrite Hs. apply Hq. lia.
      * unfold unlinked. rewrite Hn. exact Hun.
      * cbn. symmetry. exact Hfs1.
      * cbn. symmetry. exact Hout1.
    + destruct (body_result name (fs_of v !! name)) as [[]|e'] eqn:Hres.
      * destruct Hok as [_ Hok]. discriminate (Hok eq_refl).
      * cbn. split; [symmetry; exact Hfs1 |]. split; [symmetry; exact Hout1 |].
        split; intros Hx; discriminate Hx.
Qed.
